(** * Soo Nova Defense: the per-frame simulation engine of [src/App.tsx]

    A shallow embedding of the game engine and the properties of its
    specification.

    Numbers.  A JavaScript [number] is an IEEE 754 binary64 value, so
    positions, speeds, radii, alphas and times are primitive floats
    ([PrimFloat.float]): [+], [-], [*], [/], [Math.sqrt] and [Math.abs]
    are the correctly rounded binary64 operations, [0/0] is NaN and every
    comparison with NaN is [false].  The counters [score], [highScore],
    [round], [ammo], [maxAmmo] and [lastRefillScore] only ever hold
    integers far below 2^53, where binary64 arithmetic is exact; they are
    integers of [Z].

    The kinematic step of rockets and interceptors is written once over
    the arithmetic operations it uses, instantiated with binary64.

    React.  The animation loop calls the [update] of the render in which
    its effect last ran, and the effect runs again only when [gameState],
    [score] or [shake] has changed (the dependencies of [draw], line 645,
    and of the effect, line 669).  So [update] reads [gameState], [score]
    and [shake] as last rendered; [gameMode] and [highScore] change only
    together with [gameState] and are as last rendered too; but [round]
    is read as it was in the last render that changed one of the three
    ([seenRound]).  The state updates of a frame ([setScore (s => s +
    ROCKET_SCORE)], [setShake], [setRound (r => r + 1)],
    [setGameState]) are queued and committed together when the frame is
    over.  The [useRef] cells are read and written in place.  The canvas
    is mounted ([canvasRef.current] is not null).

    Randomness.  The two [Math.random()] draws of [spawnRocket] that
    matter to the game (the start column and the target) are inputs of the
    frame.

    Left out: particles and floating texts (modelled on their own further
    down), entity ids and colours, which only feed the renderer. *)

From Stdlib Require Import Floats Uint63 ZArith List Bool Lia.
Import ListNotations.

Set Implicit Arguments.
Set Warnings "-inexact-float".

(* ================================================================== *)
(** ** Arithmetic interface *)

Class Arith (num : Type) : Type := {
  add  : num -> num -> num;
  sub  : num -> num -> num;
  mul  : num -> num -> num;
  div  : num -> num -> num;
  sqrt : num -> num;            (* Math.sqrt *)
  leb  : num -> num -> bool     (* a <= b; [b >= a] in the source *)
}.

Declare Scope num_scope.
Delimit Scope num_scope with num.
Infix "+" := add : num_scope.
Infix "-" := sub : num_scope.
Infix "*" := mul : num_scope.
Infix "/" := div : num_scope.
Infix "<=?" := leb : num_scope.

(** binary64, the arithmetic of the running program *)
#[export] Instance float_arith : Arith float := {
  add := PrimFloat.add;
  sub := PrimFloat.sub;
  mul := PrimFloat.mul;
  div := PrimFloat.div;
  sqrt := PrimFloat.sqrt;
  leb := PrimFloat.leb
}.

(** An integer counter used in a floating-point expression
    ([round * 0.15], [round * 150]). *)
Definition Z2F (z : Z) : float :=
  match z with
  | Z0 => 0%float
  | Zpos _ => PrimFloat.of_uint63 (Uint63.of_Z z)
  | Zneg p => PrimFloat.opp (PrimFloat.of_uint63 (Uint63.of_Z (Zpos p)))
  end.

(** [Math.max] on two numbers: NaN if either is NaN, else the larger. *)
Definition fmax (a b : float) : float :=
  if PrimFloat.is_nan a || PrimFloat.is_nan b then PrimFloat.nan
  else if PrimFloat.ltb a b then b else a.

(* ================================================================== *)
(** ** Types and constants (lines 12-92) *)

Inductive GameState := START | PLAYING | WON | LOST | ROUND_OVER.
Inductive GameMode := CLASSIC | ENDLESS.

Record Point (num : Type) := mkPoint { p_x : num; p_y : num }.

Record Rocket (num : Type) := mkRocket {
  r_start : Point num;
  r_end : Point num;
  r_current : Point num;
  r_speed : num
}.

Record Interceptor := mkInterceptor {
  i_start : Point float;
  i_target : Point float;
  i_current : Point float;
  i_speed : float;
  i_turretIndex : Z
}.

Record Explosion := mkExplosion {
  e_pos : Point float;
  e_radius : float;
  e_maxRadius : float;
  e_growing : bool;
  e_alpha : float
}.

Record Warning := mkWarning { w_x : float; w_life : float }.

Record Turret := mkTurret {
  t_x : float;
  t_y : float;
  t_ammo : Z;
  t_maxAmmo : Z;
  t_active : bool
}.

Record City := mkCity { c_x : float; c_y : float; c_active : bool }.

Definition WIN_SCORE : Z := 1000.
Definition ROCKET_SCORE : Z := 20.
Definition EXPLOSION_SPEED : float := 1.8.
Definition EXPLOSION_MAX_RADIUS : float := 75.
Definition INTERCEPTOR_SPEED : float := 9.
Definition ROCKET_BASE_SPEED : float := 1.2.

(** The component state and the refs of [App], with the one key of
    [localStorage] the engine writes. *)
Record Game := mkGame {
  gameState : GameState;
  gameMode : GameMode;
  score : Z;
  scoreQueue : Z;               (* queued [setScore] increments *)
  highScore : Z;
  round : Z;
  hasRefilledAt500 : bool;
  lastRefillScore : Z;
  rockets : list (Rocket float);
  interceptors : list Interceptor;
  explosions : list Explosion;
  warnings : list Warning;
  turrets : list Turret;
  cities : list City;
  nextRocketTime : float;
  stored : option Z;            (* localStorage 'soo_nova_high_score' *)
  shake : float;                (* the [shake] state as rendered *)
  shakeSet : option float;      (* the last queued [setShake(amount)] *)
  seenRound : Z                 (* [round] as the running [update] sees it *)
}.

(** Assignments to one cell of the state. *)
Definition set_gameState (v : GameState) (s : Game) : Game :=
  mkGame v (gameMode s) (score s) (scoreQueue s) (highScore s) (round s)
    (hasRefilledAt500 s) (lastRefillScore s) (rockets s) (interceptors s)
    (explosions s) (warnings s) (turrets s) (cities s) (nextRocketTime s) (stored s)
    (shake s) (shakeSet s) (seenRound s).
Definition set_gameMode (v : GameMode) (s : Game) : Game :=
  mkGame (gameState s) v (score s) (scoreQueue s) (highScore s) (round s)
    (hasRefilledAt500 s) (lastRefillScore s) (rockets s) (interceptors s)
    (explosions s) (warnings s) (turrets s) (cities s) (nextRocketTime s) (stored s)
    (shake s) (shakeSet s) (seenRound s).
Definition set_score (v : Z) (s : Game) : Game :=
  mkGame (gameState s) (gameMode s) v (scoreQueue s) (highScore s) (round s)
    (hasRefilledAt500 s) (lastRefillScore s) (rockets s) (interceptors s)
    (explosions s) (warnings s) (turrets s) (cities s) (nextRocketTime s) (stored s)
    (shake s) (shakeSet s) (seenRound s).
Definition set_scoreQueue (v : Z) (s : Game) : Game :=
  mkGame (gameState s) (gameMode s) (score s) v (highScore s) (round s)
    (hasRefilledAt500 s) (lastRefillScore s) (rockets s) (interceptors s)
    (explosions s) (warnings s) (turrets s) (cities s) (nextRocketTime s) (stored s)
    (shake s) (shakeSet s) (seenRound s).
Definition set_highScore (v : Z) (s : Game) : Game :=
  mkGame (gameState s) (gameMode s) (score s) (scoreQueue s) v (round s)
    (hasRefilledAt500 s) (lastRefillScore s) (rockets s) (interceptors s)
    (explosions s) (warnings s) (turrets s) (cities s) (nextRocketTime s) (stored s)
    (shake s) (shakeSet s) (seenRound s).
Definition set_round (v : Z) (s : Game) : Game :=
  mkGame (gameState s) (gameMode s) (score s) (scoreQueue s) (highScore s) v
    (hasRefilledAt500 s) (lastRefillScore s) (rockets s) (interceptors s)
    (explosions s) (warnings s) (turrets s) (cities s) (nextRocketTime s) (stored s)
    (shake s) (shakeSet s) (seenRound s).
Definition set_hasRefilledAt500 (v : bool) (s : Game) : Game :=
  mkGame (gameState s) (gameMode s) (score s) (scoreQueue s) (highScore s) (round s)
    v (lastRefillScore s) (rockets s) (interceptors s)
    (explosions s) (warnings s) (turrets s) (cities s) (nextRocketTime s) (stored s)
    (shake s) (shakeSet s) (seenRound s).
Definition set_lastRefillScore (v : Z) (s : Game) : Game :=
  mkGame (gameState s) (gameMode s) (score s) (scoreQueue s) (highScore s) (round s)
    (hasRefilledAt500 s) v (rockets s) (interceptors s)
    (explosions s) (warnings s) (turrets s) (cities s) (nextRocketTime s) (stored s)
    (shake s) (shakeSet s) (seenRound s).
Definition set_rockets (v : list (Rocket float)) (s : Game) : Game :=
  mkGame (gameState s) (gameMode s) (score s) (scoreQueue s) (highScore s) (round s)
    (hasRefilledAt500 s) (lastRefillScore s) v (interceptors s)
    (explosions s) (warnings s) (turrets s) (cities s) (nextRocketTime s) (stored s)
    (shake s) (shakeSet s) (seenRound s).
Definition set_interceptors (v : list Interceptor) (s : Game) : Game :=
  mkGame (gameState s) (gameMode s) (score s) (scoreQueue s) (highScore s) (round s)
    (hasRefilledAt500 s) (lastRefillScore s) (rockets s) v
    (explosions s) (warnings s) (turrets s) (cities s) (nextRocketTime s) (stored s)
    (shake s) (shakeSet s) (seenRound s).
Definition set_explosions (v : list Explosion) (s : Game) : Game :=
  mkGame (gameState s) (gameMode s) (score s) (scoreQueue s) (highScore s) (round s)
    (hasRefilledAt500 s) (lastRefillScore s) (rockets s) (interceptors s)
    v (warnings s) (turrets s) (cities s) (nextRocketTime s) (stored s)
    (shake s) (shakeSet s) (seenRound s).
Definition set_warnings (v : list Warning) (s : Game) : Game :=
  mkGame (gameState s) (gameMode s) (score s) (scoreQueue s) (highScore s) (round s)
    (hasRefilledAt500 s) (lastRefillScore s) (rockets s) (interceptors s)
    (explosions s) v (turrets s) (cities s) (nextRocketTime s) (stored s)
    (shake s) (shakeSet s) (seenRound s).
Definition set_turrets (v : list Turret) (s : Game) : Game :=
  mkGame (gameState s) (gameMode s) (score s) (scoreQueue s) (highScore s) (round s)
    (hasRefilledAt500 s) (lastRefillScore s) (rockets s) (interceptors s)
    (explosions s) (warnings s) v (cities s) (nextRocketTime s) (stored s)
    (shake s) (shakeSet s) (seenRound s).
Definition set_cities (v : list City) (s : Game) : Game :=
  mkGame (gameState s) (gameMode s) (score s) (scoreQueue s) (highScore s) (round s)
    (hasRefilledAt500 s) (lastRefillScore s) (rockets s) (interceptors s)
    (explosions s) (warnings s) (turrets s) v (nextRocketTime s) (stored s)
    (shake s) (shakeSet s) (seenRound s).
Definition set_nextRocketTime (v : float) (s : Game) : Game :=
  mkGame (gameState s) (gameMode s) (score s) (scoreQueue s) (highScore s) (round s)
    (hasRefilledAt500 s) (lastRefillScore s) (rockets s) (interceptors s)
    (explosions s) (warnings s) (turrets s) (cities s) v (stored s)
    (shake s) (shakeSet s) (seenRound s).
Definition set_stored (v : option Z) (s : Game) : Game :=
  mkGame (gameState s) (gameMode s) (score s) (scoreQueue s) (highScore s) (round s)
    (hasRefilledAt500 s) (lastRefillScore s) (rockets s) (interceptors s)
    (explosions s) (warnings s) (turrets s) (cities s) (nextRocketTime s) v
    (shake s) (shakeSet s) (seenRound s).

Definition set_shake (v : float) (s : Game) : Game :=
  mkGame (gameState s) (gameMode s) (score s) (scoreQueue s) (highScore s) (round s)
    (hasRefilledAt500 s) (lastRefillScore s) (rockets s) (interceptors s)
    (explosions s) (warnings s) (turrets s) (cities s) (nextRocketTime s) (stored s)
    v (shakeSet s) (seenRound s).
Definition set_shakeSet (v : option float) (s : Game) : Game :=
  mkGame (gameState s) (gameMode s) (score s) (scoreQueue s) (highScore s) (round s)
    (hasRefilledAt500 s) (lastRefillScore s) (rockets s) (interceptors s)
    (explosions s) (warnings s) (turrets s) (cities s) (nextRocketTime s) (stored s)
    (shake s) v (seenRound s).
Definition set_seenRound (v : Z) (s : Game) : Game :=
  mkGame (gameState s) (gameMode s) (score s) (scoreQueue s) (highScore s) (round s)
    (hasRefilledAt500 s) (lastRefillScore s) (rockets s) (interceptors s)
    (explosions s) (warnings s) (turrets s) (cities s) (nextRocketTime s) (stored s)
    (shake s) (shakeSet s) v.

Definition GameState_eqb (a b : GameState) : bool :=
  match a, b with
  | START, START | PLAYING, PLAYING | WON, WON | LOST, LOST
  | ROUND_OVER, ROUND_OVER => true
  | _, _ => false
  end.

Definition GameMode_eqb (a b : GameMode) : bool :=
  match a, b with
  | CLASSIC, CLASSIC | ENDLESS, ENDLESS => true
  | _, _ => false
  end.

(** [arr.filter(cb)] with a callback that mutates the element it is given
    and the shared state: the callback returns the element (as mutated)
    when it answers [true] and nothing when it answers [false]. *)
Fixpoint filterWith (A S : Type) (cb : A -> S -> option A * S)
    (l : list A) (s : S) : list A * S :=
  match l with
  | [] => ([], s)
  | a :: l' =>
      let '(keep, s1) := cb a s in
      let '(rest, s2) := filterWith cb l' s1 in
      (match keep with Some a' => a' :: rest | None => rest end, s2)
  end.

(** [triggerShake] (lines 225-227): [setShake(amount)], queued. *)
Definition triggerShake (amount : float) (s : Game) : Game :=
  set_shakeSet (Some amount) s.

(* ================================================================== *)
(** ** initLayout, startGame (lines 190-247) *)

Definition initLayout (width height : float) (s : Game) : Game :=
  let groundY := (height - 40)%float in
  let cityPositions :=
    [ (width * 0.18)%float; (width * 0.28)%float; (width * 0.38)%float;
      (width * 0.62)%float; (width * 0.72)%float; (width * 0.82)%float ] in
  set_cities (map (fun x => mkCity x groundY true) cityPositions)
    (set_turrets
       [ mkTurret 60 groundY 20 20 true;
         mkTurret (width / 2) groundY 40 40 true;
         mkTurret (width - 60) groundY 20 20 true ] s).

(** [container] is [containerRef.current]: its client width and height
    when the element is mounted.  [startGame] is an event handler: its
    state updates are rendered at once, and the loop takes the new
    [update], which sees round 1, if that render changed [gameState] or
    [score]. *)
Definition startGame (mode : GameMode) (container : option (float * float))
    (s : Game) : Game :=
  let rerun := negb (GameState_eqb (gameState s) PLAYING) || negb (score s =? 0)%Z in
  let s := set_seenRound (if rerun then 1%Z else seenRound s) s in
  let s := set_score 0 (set_scoreQueue 0 s) in
  let s := set_round 1 s in
  let s := set_gameMode mode s in
  let s := set_hasRefilledAt500 false s in
  let s := set_lastRefillScore 0 s in
  let s := set_rockets [] s in
  let s := set_interceptors [] s in
  let s := set_explosions [] s in
  let s := set_warnings [] s in
  let s := match container with
           | Some (clientWidth, clientHeight) => initLayout clientWidth clientHeight s
           | None => s
           end in
  set_gameState PLAYING s.

(* ================================================================== *)
(** ** spawnRocket (lines 249-270) *)

(** An element of [targets]: a city or a turret. *)
Definition target_x (t : City + Turret) : float :=
  match t with inl c => c_x c | inr t => t_x t end.
Definition target_y (t : City + Turret) : float :=
  match t with inl c => c_y c | inr t => t_y t end.

Definition spawnTargets (s : Game) : list (City + Turret) :=
  map inl (filter c_active (cities s)) ++ map inr (filter t_active (turrets s)).

(** [round] is the one the running [update] closed over ([seenRound]).
    [rnd] is the value of the first [Math.random()]; [pick] stands for the
    second draw: [Math.floor(Math.random() * targets.length)] is some index
    below [targets.length], here [pick mod targets.length]. *)
Definition spawnRocket (width rnd : float) (pick : nat) (s : Game) : Game :=
  let startX := (rnd * width)%float in
  let targets := spawnTargets s in
  if (length targets =? 0)%nat then s
  else
    match nth_error targets (pick mod length targets) with
    | None => s
    | Some target =>
        let s := set_warnings (warnings s ++ [mkWarning startX 1.0]) s in
        set_rockets
          (rockets s ++
             [ mkRocket (mkPoint startX 0%float)
                 (mkPoint (target_x target) (target_y target))
                 (mkPoint startX 0%float)
                 (ROCKET_BASE_SPEED + Z2F (seenRound s) * 0.15)%float ]) s
    end.

(* ================================================================== *)
(** ** handleCanvasClick (lines 272-312) *)

(** The [forEach] of lines 290-298, from position [index] on; [acc] holds
    [bestTurretIndex] and [minDist].  [Math.pow(v, 2)] is [v * v]. *)
Fixpoint nearestTurret (ts : list Turret) (index : Z) (x y : float)
    (acc : Z * float) : Z * float :=
  match ts with
  | [] => acc
  | turret :: rest =>
      let acc' :=
        if t_active turret && (0 <? t_ammo turret)%Z then
          let dist := PrimFloat.sqrt
                        ((t_x turret - x) * (t_x turret - x)
                         + (t_y turret - y) * (t_y turret - y))%float in
          if (dist <? snd acc)%float then (index, dist) else acc
        else acc in
      nearestTurret rest (index + 1)%Z x y acc'
  end.

(** In-place mutation of the object at one index of an array. *)
Fixpoint modify_nth (A : Type) (n : nat) (f : A -> A) (l : list A) : list A :=
  match l, n with
  | [], _ => []
  | a :: l', O => f a :: l'
  | a :: l', S n' => a :: modify_nth n' f l'
  end.

Definition useAmmo (turret : Turret) : Turret :=
  mkTurret (t_x turret) (t_y turret) (t_ammo turret - 1) (t_maxAmmo turret)
    (t_active turret).

(** [x], [y]: the click point in canvas coordinates (lines 285-286). *)
Definition handleCanvasClick (x y : float) (s : Game) : Game :=
  if negb (GameState_eqb (gameState s) PLAYING) then s
  else
    let bestTurretIndex :=
      fst (nearestTurret (turrets s) 0 x y ((-1)%Z, PrimFloat.infinity)) in
    if negb (bestTurretIndex =? -1)%Z then
      match nth_error (turrets s) (Z.to_nat bestTurretIndex) with
      | None => s
      | Some turret =>
          let s := set_turrets
                     (modify_nth (Z.to_nat bestTurretIndex) useAmmo (turrets s)) s in
          set_interceptors
            (interceptors s ++
               [ mkInterceptor (mkPoint (t_x turret) (t_y turret)) (mkPoint x y)
                   (mkPoint (t_x turret) (t_y turret)) INTERCEPTOR_SPEED
                   bestTurretIndex ]) s
      end
    else s.

(* ================================================================== *)
(** ** update: kinematics (lines 327-366) *)

Section Kinematics.
Context {num : Type} `{Arith num}.
Local Open Scope num_scope.

(** Lines 328-332 and 353-357: one step of [current] along the unit
    vector from [start] to [dest]. *)
Definition advance (start dest current : Point num) (speed : num) : Point num :=
  let dx := p_x dest - p_x start in
  let dy := p_y dest - p_y start in
  let dist := sqrt (dx * dx + dy * dy) in
  mkPoint (p_x current + (dx / dist) * speed)
          (p_y current + (dy / dist) * speed).

Definition rocket_advance (rocket : Rocket num) : Rocket num :=
  mkRocket (r_start rocket) (r_end rocket)
    (advance (r_start rocket) (r_end rocket) (r_current rocket) (r_speed rocket))
    (r_speed rocket).

(** [rocket.current.y >= rocket.end.y] *)
Definition rocket_arrived (rocket : Rocket num) : bool :=
  p_y (r_end rocket) <=? p_y (r_current rocket).

(** Distance from [a] to [b]. *)
Definition distance (a b : Point num) : num :=
  sqrt ((p_x a - p_x b) * (p_x a - p_x b) + (p_y a - p_y b) * (p_y a - p_y b)).
End Kinematics.

Definition interceptor_advance (inter : Interceptor) : Interceptor :=
  mkInterceptor (i_start inter) (i_target inter)
    (advance (i_start inter) (i_target inter) (i_current inter) (i_speed inter))
    (i_speed inter) (i_turretIndex inter).

(** [inter.current.y <= inter.target.y] *)
Definition interceptor_arrived (inter : Interceptor) : bool :=
  (p_y (i_current inter) <=? p_y (i_target inter))%float.

(** [Math.abs(e.x - rocket.current.x) < 25] *)
Definition inStrip (x rx : float) : bool :=
  (PrimFloat.abs (x - rx) <? 25)%float.

Definition hitCity (rx : float) (city : City) : City :=
  if c_active city && inStrip (c_x city) rx
  then mkCity (c_x city) (c_y city) false else city.

Definition hitTurret (rx : float) (turret : Turret) : Turret :=
  if t_active turret && inStrip (t_x turret) rx
  then mkTurret (t_x turret) (t_y turret) (t_ammo turret) (t_maxAmmo turret) false
  else turret.

(** Lines 341-346: the two [forEach] loops of a ground impact at [rx]. *)
Definition groundImpact (rx : float) (s : Game) : Game :=
  set_turrets (map (hitTurret rx) (turrets s))
    (set_cities (map (hitCity rx) (cities s)) s).

Definition pushExplosion (e : Explosion) (s : Game) : Game :=
  set_explosions (explosions s ++ [e]) s.

(** The callback of the rocket filter (lines 327-350). *)
Definition rocketFrame (rocket : Rocket float) (s : Game)
    : option (Rocket float) * Game :=
  let rocket := rocket_advance rocket in
  if rocket_arrived rocket then
    let s := pushExplosion (mkExplosion (r_current rocket) 2 55 true 1) s in
    let s := triggerShake 12 s in
    (None, groundImpact (p_x (r_current rocket)) s)
  else (Some rocket, s).

(** The callback of the interceptor filter (lines 352-366). *)
Definition interceptorFrame (inter : Interceptor) (s : Game)
    : option Interceptor * Game :=
  let inter := interceptor_advance inter in
  if interceptor_arrived inter then
    (None, pushExplosion (mkExplosion (i_target inter) 2 EXPLOSION_MAX_RADIUS true 1) s)
  else (Some inter, s).

Definition rocketsPhase (s : Game) : Game :=
  let '(rs, s') := filterWith rocketFrame (rockets s) s in set_rockets rs s'.

Definition interceptorsPhase (s : Game) : Game :=
  let '(ins, s') := filterWith interceptorFrame (interceptors s) s in
  set_interceptors ins s'.

(* ================================================================== *)
(** ** update: explosions (lines 368-392) *)

(** Lines 369-375. *)
Definition explosion_advance (exp : Explosion) : Explosion :=
  if e_growing exp then
    let radius := (e_radius exp + EXPLOSION_SPEED)%float in
    mkExplosion (e_pos exp) radius (e_maxRadius exp)
      (if (e_maxRadius exp <=? radius)%float then false else true) (e_alpha exp)
  else
    mkExplosion (e_pos exp) (e_radius exp - EXPLOSION_SPEED * 0.4)%float
      (e_maxRadius exp) false (e_alpha exp - 0.02)%float.

(** [exp.radius > 0 && exp.alpha > 0] *)
Definition explosion_alive (exp : Explosion) : bool :=
  (0 <? e_radius exp)%float && (0 <? e_alpha exp)%float.

(** The test of lines 378-380: the rocket is inside the blast. *)
Definition inBlast (exp : Explosion) (rocket : Rocket float) : bool :=
  let dx := (p_x (r_current rocket) - p_x (e_pos exp))%float in
  let dy := (p_y (r_current rocket) - p_y (e_pos exp))%float in
  (PrimFloat.sqrt (dx * dx + dy * dy) <? e_radius exp)%float.

(** The callback of the inner rocket filter (lines 377-390).  The chained
    explosion is pushed on [explosionsRef.current], the array the outer
    filter is walking. *)
Definition blastFrame (exp : Explosion) (rocket : Rocket float) (s : Game)
    : option (Rocket float) * Game :=
  if inBlast exp rocket then
    let s := set_scoreQueue (scoreQueue s + ROCKET_SCORE) s in
    (None, pushExplosion
             (mkExplosion (r_current rocket) 2 EXPLOSION_MAX_RADIUS true 1) s)
  else (Some rocket, s).

(** The callback of the explosion filter. *)
Definition explosionFrame (exp : Explosion) (s : Game)
    : option Explosion * Game :=
  let exp := explosion_advance exp in
  let '(rs, s') := filterWith (blastFrame exp) (rockets s) s in
  let s' := set_rockets rs s' in
  (if explosion_alive exp then Some exp else None, s').

(** [explosionsRef.current = explosionsRef.current.filter(...)]: [filter]
    visits the elements the array had when it was called and returns a new
    array; what the callbacks pushed on the old array meanwhile is not
    visited and is not in the result that replaces it. *)
Definition explosionsPhase (s : Game) : Game :=
  let '(es, s') := filterWith explosionFrame (explosions s) s in
  set_explosions es s'.

(** Lines 407-410. *)
Definition warningsPhase (s : Game) : Game :=
  set_warnings
    (filter (fun w => (0 <? w_life w)%float)
       (map (fun w => mkWarning (w_x w) (w_life w - 0.02)%float) (warnings s))) s.

(* ================================================================== *)
(** ** update: progression (lines 412-450) *)

(** [if (t.active) t.ammo = t.maxAmmo] *)
Definition refill (t : Turret) : Turret :=
  if t_active t
  then mkTurret (t_x t) (t_y t) (t_maxAmmo t) (t_maxAmmo t) (t_active t)
  else t.

Definition refillTurrets (s : Game) : Game :=
  set_turrets (map refill (turrets s)) s.

(** [score >= 500 && !hasRefilledAt500.current] *)
Definition refill500_fires (s : Game) : bool :=
  (500 <=? score s)%Z && negb (hasRefilledAt500 s).

(** Lines 413-423. *)
Definition refill500 (s : Game) : Game :=
  if refill500_fires s
  then triggerShake 10 (set_hasRefilledAt500 true (refillTurrets s))
  else s.

(** [gameMode === 'ENDLESS' && score > 0 && score % 800 === 0
     && score !== lastRefillScore.current] *)
Definition refill800_fires (s : Game) : bool :=
  GameMode_eqb (gameMode s) ENDLESS && (0 <? score s)%Z
  && (Z.rem (score s) 800 =? 0)%Z && negb (score s =? lastRefillScore s)%Z.

(** Lines 426-435. *)
Definition refill800 (s : Game) : Game :=
  if refill800_fires s
  then triggerShake 8 (set_lastRefillScore (score s) (refillTurrets s))
  else s.

(** [turretsRef.current.every(t => !t.active)] *)
Definition allTurretsDown (s : Game) : bool :=
  forallb (fun t => negb (t_active t)) (turrets s).

(** Lines 437-445. *)
Definition winLoss (s : Game) : Game :=
  if GameMode_eqb (gameMode s) CLASSIC && (WIN_SCORE <=? score s)%Z then
    set_gameState WON s
  else if allTurretsDown s then
    let s := if (highScore s <? score s)%Z
             then set_stored (Some (score s)) (set_highScore (score s) s)
             else s in
    set_gameState LOST s
  else s.

(** The condition of line 447. *)
Definition roundOver (s : Game) : bool :=
  (length (rockets s) =? 0)%nat
  && forallb (fun t => (t_ammo t =? 0)%Z) (turrets s)
  && (length (interceptors s) =? 0)%nat.

(** Lines 447-450. *)
Definition roundAdvance (s : Game) : Game :=
  if roundOver s then set_round (round s + 1) (refillTurrets s) else s.

(* ================================================================== *)
(** ** update (lines 314-451) *)

(** What one animation frame brings from outside: the timestamp, the
    canvas width and the two random draws of [spawnRocket]. *)
Record Frame := mkFrame {
  f_time : float;
  f_width : float;
  f_rnd : float;
  f_pick : nat
}.

(** Lines 322-325. *)
Definition spawnPhase (f : Frame) (s : Game) : Game :=
  if (nextRocketTime s <? f_time f)%float then
    let s := spawnRocket (f_width f) (f_rnd f) (f_pick f) s in
    set_nextRocketTime
      (f_time f + fmax 400 (2000 - Z2F (seenRound s) * 150))%float s
  else s.

(** Lines 322-410: spawn, kinematics, explosions, decay. *)
Definition simulate (f : Frame) (s : Game) : Game :=
  warningsPhase (explosionsPhase (interceptorsPhase (rocketsPhase (spawnPhase f s)))).

(** The state on which the round check of line 447 is made. *)
Definition beforeRoundCheck (f : Frame) (s : Game) : Game :=
  winLoss (refill800 (refill500 (simulate f s))).

(** The [shake] the next render shows: the last [setShake(amount)] of
    the frame if there was one, else the updater of line 320, queued when
    the rendered [shake] was positive. *)
Definition nextShake (s : Game) : float :=
  match shakeSet s with
  | Some amount => amount
  | None => if (0 <? shake s)%float then fmax 0 (shake s - 0.5)%float else shake s
  end.

(** Whether the render after a frame of a running match makes the loop
    take a new [update]: [gameState], [score] or [shake] has changed. *)
Definition rerenders (s : Game) : bool :=
  negb (GameState_eqb (gameState s) PLAYING)
  || negb (scoreQueue s =? 0)%Z
  || negb (PrimFloat.Leibniz.eqb (nextShake s) (shake s)).

(** React applies the queued updates before the next frame. *)
Definition commit (s : Game) : Game :=
  let s := set_seenRound (if rerenders s then round s else seenRound s) s in
  let s := set_shakeSet None (set_shake (nextShake s) s) in
  set_scoreQueue 0 (set_score (score s + scoreQueue s) s).

Definition update (f : Frame) (s : Game) : Game :=
  if negb (GameState_eqb (gameState s) PLAYING) then s
  else commit (roundAdvance (beforeRoundCheck f s)).

(** What can happen during a match: an animation frame or a click. *)
Inductive step (s : Game) : Game -> Prop :=
| step_frame : forall f, step s (update f s)
| step_click : forall x y, step s (handleCanvasClick x y s).

Inductive steps (s : Game) : Game -> Prop :=
| steps_refl : steps s s
| steps_next : forall s1 s2, steps s s1 -> step s1 s2 -> steps s s2.

(** The state of [App] before the first match, on a canvas of the given
    size (the refs of lines 172-188 after the first resize). *)
Definition initialGame (width height : float) (saved : option Z) : Game :=
  initLayout width height
    (mkGame START CLASSIC 0 0 (match saved with Some v => v | None => 0%Z end) 1
       false 0 [] [] [] [] [] [] 0%float saved 0%float None 1).

(* ================================================================== *)
(** ** Vocabulary of the properties *)

(** The cells no kinematics or explosion code writes. *)
Definition control (s : Game) :=
  (gameState s, gameMode s, score s, highScore s, round s,
   hasRefilledAt500 s, lastRefillScore s, stored s).

(** A turret as a ground impact may leave it: same place, same ammunition,
    never switched back on. *)
Definition worn (t t' : Turret) : Prop :=
  t_x t' = t_x t /\ t_y t' = t_y t /\ t_ammo t' = t_ammo t /\
  t_maxAmmo t' = t_maxAmmo t /\ (t_active t' = true -> t_active t = true).

(** The simulation of a frame, as far as progression can tell: the
    control cells are untouched and turrets are only ever switched off. *)
Definition calm (s0 s : Game) : Prop :=
  control s = control s0 /\ Forall2 worn (turrets s0) (turrets s).

(** Every active turret is at full ammunition. *)
Definition armed (ts : list Turret) : Prop :=
  Forall (fun t => t_active t = true -> t_ammo t = t_maxAmmo t) ts.

(** A turret before and after a refill of the still-active turrets, in
    the words of the specification: an active turret has its ammunition
    at the [maxAmmo] it had and is otherwise as it was; an inactive turret
    is as it was. *)
Definition refilled (t t' : Turret) : Prop :=
  t_x t' = t_x t /\ t_y t' = t_y t /\ t_maxAmmo t' = t_maxAmmo t
  /\ t_active t' = t_active t
  /\ (t_active t = true -> t_ammo t' = t_maxAmmo t)
  /\ (t_active t = false -> t_ammo t' = t_ammo t).

(** Paths of the match along which every state satisfies [P]. *)
Inductive run (P : Game -> Prop) (s : Game) : Game -> Prop :=
| run_here : P s -> run P s s
| run_next : forall s1 s2, run P s s1 -> step s1 s2 -> P s2 -> run P s s2.


(** A classic match on an 800 x 600 canvas whose score reached 1000 with
    the kill of the last frame; two turrets are wrecked and a rocket is
    half a pixel above the last one. *)
Definition lastStand : Game :=
  mkGame PLAYING CLASSIC 1000 0 0 3 true 0
    [ mkRocket (mkPoint 400 0) (mkPoint 400 560) (mkPoint 400 559.5) 1.65 ]%float
    [] [] []
    [ mkTurret 60 560 4 20 false; mkTurret 400 560 7 40 true;
      mkTurret 740 560 0 20 false ]
    [] 5000%float None 0%float None 3.

Definition quietFrame : Frame := mkFrame 1000 800 0.5 0.

(** A wrecked turret that still holds ammunition. *)
Definition stranded (t : Turret) : Prop :=
  t_active t = false /\ (0 < t_ammo t)%Z.

Definition stuck (s : Game) : Prop := Exists stranded (turrets s).

(** What a ground impact at [rx] may do to a turret and to a city: only
    the [active] flag is written, only from [true] to [false], and only
    inside the strip. *)
Definition turretAfterImpact (rx : float) (t t' : Turret) : Prop :=
  t_x t' = t_x t /\ t_y t' = t_y t /\ t_ammo t' = t_ammo t
  /\ t_maxAmmo t' = t_maxAmmo t
  /\ (inStrip (t_x t) rx = false -> t' = t)
  /\ (t_active t = true -> inStrip (t_x t) rx = true -> t_active t' = false)
  /\ (t_active t = false -> t' = t).

Definition cityAfterImpact (rx : float) (c c' : City) : Prop :=
  c_x c' = c_x c /\ c_y c' = c_y c
  /\ (inStrip (c_x c) rx = false -> c' = c)
  /\ (c_active c = true -> inStrip (c_x c) rx = true -> c_active c' = false)
  /\ (c_active c = false -> c' = c).

(** The explosions the engine creates: radius 2, growing, opaque
    (lines 336, 361 and 385). *)
Definition newExplosion (pos : Point float) (maxRadius : float) : Explosion :=
  mkExplosion pos 2 maxRadius true 1.

(** An explosion after [k] frames of the explosion filter; [None] once the
    filter has dropped it. *)
Fixpoint explosion_after (k : nat) (exp : Explosion) : option Explosion :=
  match k with
  | O => Some exp
  | S k' =>
      match explosion_after k' exp with
      | Some e =>
          let e' := explosion_advance e in
          if explosion_alive e' then Some e' else None
      | None => None
      end
  end.

(** An explosion of the engine at some frame of its life. *)
Definition lawful (e : Explosion) : Prop :=
  exists pos maxRadius k,
    (maxRadius = 55%float \/ maxRadius = EXPLOSION_MAX_RADIUS)
    /\ explosion_after k (newExplosion pos maxRadius) = Some e.

(** Every explosion in the store is one. *)
Definition lawfulStore (s : Game) : Prop := Forall lawful (explosions s).

(** The radius is positive and below [maxRadius + EXPLOSION_SPEED], below
    [maxRadius] while the explosion grows; the next frame does not shrink a
    growing explosion and does not grow a shrinking one. *)
Definition explosion_ok (e : Explosion) : bool :=
  (0 <? e_radius e)%float
  && (e_radius e <? e_maxRadius e + EXPLOSION_SPEED)%float
  && (if e_growing e then (e_radius e <? e_maxRadius e)%float else true)
  && (if e_growing e
      then (e_radius e <=? e_radius (explosion_advance e))%float
      else (e_radius (explosion_advance e) <=? e_radius e)%float).

(** An endless match on an 800 x 600 canvas with one rocket about to
    reach the ground between the first two cities, and frames that spawn
    nothing. *)
Definition impactGame : Game :=
  mkGame PLAYING ENDLESS 0 0 0 1 false 0
    [ mkRocket (mkPoint 184 0) (mkPoint 184 560) (mkPoint 184 559) 1.35 ]%float
    [] [] []
    [ mkTurret 60 560 20 20 true; mkTurret 400 560 40 40 true;
      mkTurret 740 560 20 20 true ]
    [] 1.0e9%float None 0%float None 1.

(** A fresh classic match on an 800 x 600 canvas, and the same match
    after a click on the very position of the left turret. *)
Definition freshGame : Game :=
  startGame CLASSIC (Some (800, 600)%float) (initialGame 800 600 None).

Definition clickedOnTurret : Game := handleCanvasClick 60 560 freshGame.

(** An interceptor that was launched at its own start point, one frame
    later. *)
Definition adrift (inter : Interceptor) : Prop :=
  i_start inter = i_target inter
  /\ i_current inter = mkPoint PrimFloat.nan PrimFloat.nan.

(** A match started on a canvas 480 wide and 39 high: the ground line
    [height - 40] is above the top edge.  The first frame spawns a rocket
    over the left turret and aimed at it; the second spawns nothing. *)
Definition lowCanvas : Game :=
  startGame ENDLESS (Some (480, 39)%float) (initialGame 480 39 None).

Definition firstFrame : Frame := mkFrame 1 480 0.125 6.
Definition secondFrame : Frame := mkFrame 2 480 0.125 6.

(** A running match with nothing in flight and no spawn due. *)
Definition stage (mode : GameMode) (points high last : Z) (latch : bool)
    (ts : list Turret) : Game :=
  mkGame PLAYING mode points 0 high 1 latch last [] [] [] [] ts [] 1.0e9%float None
    0%float None 1.


(** Scenario F of the specification. *)
Definition milestone1600 : Game :=
  stage ENDLESS 1600 0 800 true
    [ mkTurret 60 560 3 20 true; mkTurret 400 560 0 40 false;
      mkTurret 740 560 1 20 true ].

Definition reached500 : Game :=
  stage CLASSIC 500 0 0 false
    [ mkTurret 60 560 3 20 true; mkTurret 400 560 0 40 false;
      mkTurret 740 560 1 20 true ].

Definition spent : Game :=
  stage ENDLESS 100 0 0 false
    [ mkTurret 60 560 0 20 true; mkTurret 400 560 0 40 false;
      mkTurret 740 560 0 20 true ].

(** A fresh match, a click 60 px above the left turret and eight frames. *)
Definition volley : Game :=
  Nat.iter 8 (update quietFrame) (handleCanvasClick 60 500 freshGame).

(** Scenario A of the specification: a rocket from (100, 0) to the
    turret at (300, 560) in round 1. *)
Definition scenarioA : Game :=
  mkGame PLAYING CLASSIC 0 0 0 1 false 0
    [ mkRocket (mkPoint 100 0) (mkPoint 300 560) (mkPoint 100 0)
        (ROCKET_BASE_SPEED + Z2F 1 * 0.15) ]%float
    [] [] []
    [ mkTurret 60 560 20 20 true; mkTurret 300 560 40 40 true;
      mkTurret 540 560 20 20 true ]
    [] 1.0e9%float None 0%float None 1.

(** Scenario B: one turret at (300, 560) with 5 rounds. *)
Definition scenarioB : Game :=
  stage CLASSIC 0 0 0 false [ mkTurret 300 560 5 40 true ].

(** Scenarios C and D: classic mode at 980 points, an explosion of radius
    40 at (150, 200) and a rocket 30 px below its centre. *)
Definition scenarioD : Game :=
  mkGame PLAYING CLASSIC 980 0 0 1 true 0
    [ mkRocket (mkPoint 150 0) (mkPoint 150 560) (mkPoint 150 228.65) 1.35 ]%float
    []
    [ mkExplosion (mkPoint 150 200) 38.2 75 true 1 ]%float
    []
    [ mkTurret 60 560 20 20 true; mkTurret 400 560 40 40 true;
      mkTurret 740 560 20 20 true ]
    [] 1.0e9%float None 0%float None 1.

(** An endless match at 780 points.  Two explosions are growing and a
    rocket is about to enter each of them: each rocket is outside the
    radius now and inside it once the frame has moved the rocket and
    grown the explosion. *)
Definition doubleKill : Game :=
  mkGame PLAYING ENDLESS 780 0 0 1 true 0
    [ mkRocket (mkPoint 150 0) (mkPoint 150 560) (mkPoint 150 160) 1.35;
      mkRocket (mkPoint 500 0) (mkPoint 500 560) (mkPoint 500 260) 1.35 ]%float
    []
    [ mkExplosion (mkPoint 150 200) 38.2 75 true 1;
      mkExplosion (mkPoint 500 300) 38.2 75 true 1 ]%float
    []
    [ mkTurret 60 560 2 20 true; mkTurret 400 560 3 40 true;
      mkTurret 740 560 1 20 true ]
    [] 1.0e9%float None 0%float None 1.

(* ================================================================== *)
(** ** Further vocabulary *)

(** The state on which the explosion filter starts: after the spawn and
    the two kinematics filters of the frame. *)
Definition afterKinematics (f : Frame) (s : Game) : Game :=
  interceptorsPhase (rocketsPhase (spawnPhase f s)).

(** [turret.active && turret.ammo > 0] (line 291). *)
Definition eligible (t : Turret) : bool :=
  t_active t && (0 <? t_ammo t)%Z.

(** The distance of line 292 from a turret to the click point. *)
Definition clickDistance (x y : float) (t : Turret) : float :=
  PrimFloat.sqrt ((t_x t - x) * (t_x t - x) + (t_y t - y) * (t_y t - y))%float.

(** The ammunition of every turret is between 0 and its [maxAmmo]. *)
Definition ammoOk (ts : list Turret) : Prop :=
  Forall (fun t => (0 <= t_ammo t <= t_maxAmmo t)%Z) ts.

(** A turret, and a city, later in the same match: same place, same
    capacity, never switched back on. *)
Definition laterTurret (t t' : Turret) : Prop :=
  t_x t' = t_x t /\ t_y t' = t_y t /\ t_maxAmmo t' = t_maxAmmo t
  /\ (t_active t' = true -> t_active t = true).

Definition laterCity (c c' : City) : Prop :=
  c_x c' = c_x c /\ c_y c' = c_y c
  /\ (c_active c' = true -> c_active c = true).

(** Queued points and live rockets, weighed together. *)
Definition bounty (t : Game) : Z :=
  (scoreQueue t + ROCKET_SCORE * Z.of_nat (length (rockets t)))%Z.


(** [Math.max(400, 2000 - (round * 150))] (line 324) and
    [ROCKET_BASE_SPEED + (round * 0.15)] (line 267). *)
Definition spawnDelay (round : Z) : float :=
  fmax 400 (2000 - Z2F round * 150)%float.

Definition rocketSpeed (round : Z) : float :=
  (ROCKET_BASE_SPEED + Z2F round * 0.15)%float.

(** A rocket with the speed of some round from 1 to [top]; a state in
    which the round the loop sees is between 1 and the current round and
    every rocket in flight has the speed of a round the loop has seen. *)
Definition seasoned (top : Z) (r : Rocket float) : Prop :=
  exists n, (1 <= n <= top)%Z /\ r_speed r = rocketSpeed n.

Definition paced (s : Game) : Prop :=
  (1 <= seenRound s <= round s)%Z /\ Forall (seasoned (seenRound s)) (rockets s).

(** The checks behind the two tables of rounds 1 to 1000. *)
Definition spawnDelay_exact (n : nat) : bool :=
  PrimFloat.Leibniz.eqb (spawnDelay (Z.of_nat n))
    (Z2F (Z.max 400 (2000 - 150 * Z.of_nat n))).

Definition rocketSpeed_grows (n : nat) : bool :=
  (rocketSpeed (Z.of_nat n) <? rocketSpeed (Z.of_nat n + 1))%float.

(* ================================================================== *)
(** ** Transient visuals (lines 47-71, 218-223, 394-410) *)

(** Particles and floating texts as far as their filters read and write
    them: [id], colour and text are left out. *)

Record Particle := mkParticle {
  pt_x : float; pt_y : float; pt_vx : float; pt_vy : float;
  pt_life : float; pt_size : float
}.

Record FloatingText := mkFloatingText {
  ft_x : float; ft_y : float; ft_life : float
}.

(** The callbacks of the three decay filters: the element as mutated when
    the callback answers [true]. *)
Definition particleFrame (p : Particle) : option Particle :=
  let p := mkParticle (pt_x p + pt_vx p) (pt_y p + pt_vy p) (pt_vx p) (pt_vy p)
             (pt_life p - 0.02) (pt_size p) in
  if (0 <? pt_life p)%float then Some p else None.

Definition floatingTextFrame (t : FloatingText) : option FloatingText :=
  let t := mkFloatingText (ft_x t) (ft_y t - 1) (ft_life t - 0.02) in
  if (0 <? ft_life t)%float then Some t else None.

Definition warningFrame (w : Warning) : option Warning :=
  let w := mkWarning (w_x w) (w_life w - 0.02) in
  if (0 <? w_life w)%float then Some w else None.

(** An element after [k] passes of its filter; [None] once dropped. *)
Fixpoint decay (A : Type) (frame : A -> option A) (k : nat) (a : A) : option A :=
  match k with
  | O => Some a
  | S k' => match decay frame k' a with Some a' => frame a' | None => None end
  end.

(** Alive after each of the first 49 passes, dropped by the 50th. *)
Definition lives49 (A : Type) (frame : A -> option A) (a : A) : bool :=
  forallb (fun k => match decay frame k a with Some _ => true | None => false end)
    (seq 0 50)
  && match decay frame 50 a with Some _ => false | None => true end.

(* ================================================================== *)
(** ** Clicks that are not above the turret *)

(** A fresh match on an 800 x 600 canvas and a click on the ground line,
    140 px to the right of the left turret; the same match and a click
    5 px below the left turret. *)
Definition groundClick : Game := handleCanvasClick 200 560 freshGame.
Definition shortClick : Game := handleCanvasClick 60 565 freshGame.
(* ================================================================== *)
(** * Properties *)

(** ** What the simulation phases leave alone *)



Lemma worn_refl : forall t, worn t t.
Proof. unfold worn; intuition. Qed.

Lemma worn_trans : forall a b c, worn a b -> worn b c -> worn a c.
Proof. unfold worn; intros a b c H1 H2; intuition congruence. Qed.

Lemma worn_hitTurret : forall rx t, worn t (hitTurret rx t).
Proof.
  intros rx t; unfold worn, hitTurret.
  destruct (t_active t && inStrip (t_x t) rx); simpl; intuition discriminate.
Qed.

Lemma Forall2_worn_refl : forall ts, Forall2 worn ts ts.
Proof. induction ts; constructor; auto using worn_refl. Qed.

Lemma Forall2_worn_trans :
  forall a b c, Forall2 worn a b -> Forall2 worn b c -> Forall2 worn a c.
Proof.
  intros a b c H; revert c; induction H; intros c0 H2; inversion H2; subst;
    constructor; eauto using worn_trans.
Qed.

Lemma Forall2_worn_map_hit : forall rx ts, Forall2 worn ts (map (hitTurret rx) ts).
Proof. induction ts; simpl; constructor; auto using worn_hitTurret. Qed.

(** An invariant of every callback is an invariant of the filter. *)
Lemma filterWith_inv :
  forall (A S : Type) (I : S -> Prop) (cb : A -> S -> option A * S),
    (forall a s, I s -> I (snd (cb a s))) ->
    forall l s, I s -> I (snd (filterWith cb l s)).
Proof.
  intros A S I cb Hcb; induction l as [|a l IH]; intros s Hs; simpl; auto.
  specialize (Hcb a s Hs). destruct (cb a s) as [keep s1]; simpl in Hcb.
  specialize (IH s1 Hcb). destruct (filterWith cb l s1) as [rest s2]; auto.
Qed.


Lemma calm_refl : forall s, calm s s.
Proof. split; auto using Forall2_worn_refl. Qed.

Lemma calm_rocketFrame :
  forall s0 r s, calm s0 s -> calm s0 (snd (rocketFrame r s)).
Proof.
  intros s0 r s [Hc Ht]; unfold rocketFrame.
  destruct (rocket_arrived (rocket_advance r)); simpl; split; auto.
  eapply Forall2_worn_trans; [exact Ht | apply Forall2_worn_map_hit].
Qed.

Lemma calm_interceptorFrame :
  forall s0 i s, calm s0 s -> calm s0 (snd (interceptorFrame i s)).
Proof.
  intros s0 i s H; unfold interceptorFrame.
  destruct (interceptor_arrived (interceptor_advance i)); simpl; auto.
Qed.

Lemma calm_blastFrame :
  forall s0 e r s, calm s0 s -> calm s0 (snd (blastFrame e r s)).
Proof.
  intros s0 e r s H; unfold blastFrame.
  match goal with |- context [if ?c then _ else _] => destruct c end; simpl; auto.
Qed.

Lemma calm_explosionFrame :
  forall s0 e s, calm s0 s -> calm s0 (snd (explosionFrame e s)).
Proof.
  intros s0 e s H; unfold explosionFrame.
  pose proof (filterWith_inv (calm s0) (blastFrame (explosion_advance e))
                (fun a s => @calm_blastFrame s0 _ a s) (rockets s) s H) as H1.
  destruct (filterWith (blastFrame (explosion_advance e)) (rockets s) s) as [rs s'].
  simpl in *. exact H1.
Qed.

Lemma calm_spawnRocket :
  forall s0 w rnd pick s, calm s0 s -> calm s0 (spawnRocket w rnd pick s).
Proof.
  intros s0 w rnd pick s H; unfold spawnRocket.
  destruct (length (spawnTargets s) =? 0)%nat; auto.
  destruct (nth_error _ _); auto.
Qed.

Lemma calm_simulate : forall f s, calm s (simulate f s).
Proof.
  intros f s; unfold simulate.
  assert (H0 : calm s (spawnPhase f s)).
  { unfold spawnPhase. destruct (nextRocketTime s <? f_time f)%float.
    - destruct (calm_spawnRocket (f_width f) (f_rnd f) (f_pick f) (calm_refl s)).
      split; auto.
    - apply calm_refl. }
  set (s1 := spawnPhase f s) in *.
  assert (H1 : calm s (rocketsPhase s1)).
  { unfold rocketsPhase.
    pose proof (filterWith_inv (calm s) rocketFrame
                  (fun a t => @calm_rocketFrame s a t) (rockets s1) s1 H0) as H.
    destruct (filterWith rocketFrame (rockets s1) s1); exact H. }
  set (s2 := rocketsPhase s1) in *.
  assert (H2 : calm s (interceptorsPhase s2)).
  { unfold interceptorsPhase.
    pose proof (filterWith_inv (calm s) interceptorFrame
                  (fun a t => @calm_interceptorFrame s a t) (interceptors s2) s2 H1) as H.
    destruct (filterWith interceptorFrame (interceptors s2) s2); exact H. }
  set (s3 := interceptorsPhase s2) in *.
  assert (H3 : calm s (explosionsPhase s3)).
  { unfold explosionsPhase.
    pose proof (filterWith_inv (calm s) explosionFrame
                  (fun a t => @calm_explosionFrame s a t) (explosions s3) s3 H2) as H.
    destruct (filterWith explosionFrame (explosions s3) s3); exact H. }
  exact H3.
Qed.

Lemma control_simulate : forall f s, control (simulate f s) = control s.
Proof. intros f s; exact (proj1 (calm_simulate f s)). Qed.

Lemma turrets_simulate : forall f s, Forall2 worn (turrets s) (turrets (simulate f s)).
Proof. intros f s; exact (proj2 (calm_simulate f s)). Qed.

(** Every field of [control], one by one. *)
Lemma control_fields :
  forall s s', control s' = control s ->
    gameState s' = gameState s /\ gameMode s' = gameMode s /\
    score s' = score s /\ highScore s' = highScore s /\ round s' = round s /\
    hasRefilledAt500 s' = hasRefilledAt500 s /\
    lastRefillScore s' = lastRefillScore s /\ stored s' = stored s.
Proof. unfold control; intros s s' H; inversion H; intuition. Qed.

(** ** Refills *)


Lemma armed_refill : forall ts, armed (map refill ts).
Proof.
  unfold armed; induction ts as [|t ts IH]; simpl; constructor; auto.
  unfold refill; destruct (t_active t) eqn:E; simpl; congruence.
Qed.

Lemma refill_active : forall t, t_active (refill t) = t_active t.
Proof. intros [x y a m []]; reflexivity. Qed.

Lemma refill_inactive : forall t, t_active t = false -> refill t = t.
Proof. intros t H; unfold refill; rewrite H; reflexivity. Qed.

Lemma allDown_refill :
  forall ts, forallb (fun t => negb (t_active t)) (map refill ts)
             = forallb (fun t => negb (t_active t)) ts.
Proof.
  induction ts as [|t ts IH]; simpl; auto. now rewrite refill_active, IH.
Qed.

Lemma refilled_refill : forall t, refilled t (refill t).
Proof.
  intros [x y a m act]; unfold refilled, refill; simpl.
  destruct act; simpl; repeat split; auto; discriminate.
Qed.

Lemma refilled_map : forall ts, Forall2 refilled ts (map refill ts).
Proof. induction ts; simpl; constructor; auto using refilled_refill. Qed.

Lemma refill_twice : forall ts, map refill (map refill ts) = map refill ts.
Proof.
  induction ts as [|[x y a m act] ts IH]; simpl; [reflexivity|].
  rewrite IH. destruct act; reflexivity.
Qed.

(** The turrets after progression are the turrets before it, refilled or
    not. *)
Lemma turrets_refill500 :
  forall s, turrets (refill500 s) = turrets s \/ turrets (refill500 s) = map refill (turrets s).
Proof. intros s; unfold refill500; destruct (refill500_fires s); auto. Qed.

Lemma turrets_refill800 :
  forall s, turrets (refill800 s) = turrets s \/ turrets (refill800 s) = map refill (turrets s).
Proof. intros s; unfold refill800; destruct (refill800_fires s); auto. Qed.

Lemma turrets_winLoss : forall s, turrets (winLoss s) = turrets s.
Proof.
  intros s; unfold winLoss.
  destruct (_ && _); auto. destruct (allTurretsDown s); auto.
  destruct (highScore s <? score s)%Z; auto.
Qed.

Lemma turrets_roundAdvance :
  forall s, turrets (roundAdvance s) = turrets s
            \/ turrets (roundAdvance s) = map refill (turrets s).
Proof. intros s; unfold roundAdvance; destruct (roundOver s); auto. Qed.

Lemma turrets_commit : forall s, turrets (commit s) = turrets s.
Proof. reflexivity. Qed.

(** A property of turret lists that refilling keeps is kept by the whole
    of progression. *)
Lemma progression_turrets :
  forall (P : list Turret -> Prop),
    (forall ts, P ts -> P (map refill ts)) ->
    forall s, P (turrets s) ->
      P (turrets (commit (roundAdvance (winLoss (refill800 (refill500 s)))))).
Proof.
  intros P HP s H. rewrite turrets_commit.
  assert (H1 : P (turrets (refill500 s))).
  { destruct (turrets_refill500 s) as [E|E]; rewrite E; auto. }
  assert (H2 : P (turrets (refill800 (refill500 s)))).
  { destruct (turrets_refill800 (refill500 s)) as [E|E]; rewrite E; auto. }
  assert (H3 : P (turrets (winLoss (refill800 (refill500 s))))).
  { rewrite turrets_winLoss; auto. }
  destruct (turrets_roundAdvance (winLoss (refill800 (refill500 s)))) as [E|E];
    rewrite E; auto.
Qed.

(** What each progression step does to the control cells. *)
Lemma refill500_cells :
  forall s, gameState (refill500 s) = gameState s /\ gameMode (refill500 s) = gameMode s
    /\ score (refill500 s) = score s /\ scoreQueue (refill500 s) = scoreQueue s
    /\ highScore (refill500 s) = highScore s /\ round (refill500 s) = round s
    /\ lastRefillScore (refill500 s) = lastRefillScore s /\ stored (refill500 s) = stored s
    /\ rockets (refill500 s) = rockets s /\ interceptors (refill500 s) = interceptors s
    /\ hasRefilledAt500 (refill500 s) = (hasRefilledAt500 s || refill500_fires s).
Proof.
  intros s; unfold refill500. destruct (refill500_fires s) eqn:E; simpl;
    rewrite ?orb_true_r, ?orb_false_r; intuition.
Qed.

Lemma refill800_cells :
  forall s, gameState (refill800 s) = gameState s /\ gameMode (refill800 s) = gameMode s
    /\ score (refill800 s) = score s /\ scoreQueue (refill800 s) = scoreQueue s
    /\ highScore (refill800 s) = highScore s /\ round (refill800 s) = round s
    /\ hasRefilledAt500 (refill800 s) = hasRefilledAt500 s /\ stored (refill800 s) = stored s
    /\ rockets (refill800 s) = rockets s /\ interceptors (refill800 s) = interceptors s
    /\ lastRefillScore (refill800 s)
       = (if refill800_fires s then score s else lastRefillScore s).
Proof.
  intros s; unfold refill800. destruct (refill800_fires s) eqn:E; simpl; intuition.
Qed.

Lemma winLoss_cells :
  forall s, gameMode (winLoss s) = gameMode s
    /\ score (winLoss s) = score s /\ scoreQueue (winLoss s) = scoreQueue s
    /\ round (winLoss s) = round s
    /\ hasRefilledAt500 (winLoss s) = hasRefilledAt500 s
    /\ lastRefillScore (winLoss s) = lastRefillScore s
    /\ rockets (winLoss s) = rockets s /\ interceptors (winLoss s) = interceptors s.
Proof.
  intros s; unfold winLoss.
  destruct (_ && _); simpl; [intuition|].
  destruct (allTurretsDown s); simpl; [|intuition].
  destruct (highScore s <? score s)%Z; simpl; intuition.
Qed.

Lemma roundAdvance_cells :
  forall s, gameState (roundAdvance s) = gameState s /\ gameMode (roundAdvance s) = gameMode s
    /\ score (roundAdvance s) = score s /\ scoreQueue (roundAdvance s) = scoreQueue s
    /\ highScore (roundAdvance s) = highScore s /\ stored (roundAdvance s) = stored s
    /\ hasRefilledAt500 (roundAdvance s) = hasRefilledAt500 s
    /\ lastRefillScore (roundAdvance s) = lastRefillScore s
    /\ rockets (roundAdvance s) = rockets s /\ interceptors (roundAdvance s) = interceptors s
    /\ round (roundAdvance s) = (if roundOver s then round s + 1 else round s)%Z.
Proof.
  intros s; unfold roundAdvance. destruct (roundOver s); simpl; intuition.
Qed.

Lemma update_playing :
  forall f s, gameState s = PLAYING ->
    update f s = commit (roundAdvance (beforeRoundCheck f s)).
Proof. intros f s H; unfold update; rewrite H; reflexivity. Qed.

Lemma update_idle : forall f s, gameState s <> PLAYING -> update f s = s.
Proof.
  intros f s H; unfold update. destruct (gameState s); simpl; congruence.
Qed.

(** The guards of the two refills read control cells only, so they can be
    evaluated on the state the frame starts from. *)
Lemma refill500_guard : forall f s, refill500_fires (simulate f s) = refill500_fires s.
Proof.
  intros f s. destruct (control_fields (control_simulate f s)) as (_&_&Hs&_&_&Hl&_).
  unfold refill500_fires; now rewrite Hs, Hl.
Qed.

Lemma refill800_guard :
  forall f s, refill800_fires (refill500 (simulate f s)) = refill800_fires s.
Proof.
  intros f s. destruct (control_fields (control_simulate f s)) as (_&Hm&Hs&_&_&_&Hl&_).
  destruct (refill500_cells (simulate f s)) as (_&Hm'&Hs'&_&_&_&Hl'&_).
  unfold refill800_fires; now rewrite Hm', Hs', Hl', Hm, Hs, Hl.
Qed.

Lemma commit_cells :
  forall s, gameState (commit s) = gameState s /\ gameMode (commit s) = gameMode s
    /\ highScore (commit s) = highScore s /\ round (commit s) = round s
    /\ hasRefilledAt500 (commit s) = hasRefilledAt500 s
    /\ lastRefillScore (commit s) = lastRefillScore s /\ stored (commit s) = stored s
    /\ rockets (commit s) = rockets s /\ interceptors (commit s) = interceptors s.
Proof. intros s; repeat split. Qed.

Lemma commit_score :
  forall s, scoreQueue (commit s) = 0%Z
            /\ score (commit s) = (score s + scoreQueue s)%Z.
Proof. intros s; split; reflexivity. Qed.

(** The control cells after a frame of a running match. *)
Lemma update_cells :
  forall f s, gameState s = PLAYING ->
    gameMode (update f s) = gameMode s
    /\ hasRefilledAt500 (update f s) = (hasRefilledAt500 s || refill500_fires s)
    /\ lastRefillScore (update f s)
       = (if refill800_fires s then score s else lastRefillScore s)
    /\ round (update f s)
       = (if roundOver (beforeRoundCheck f s) then round s + 1 else round s)%Z
    /\ gameState (update f s) = gameState (beforeRoundCheck f s)
    /\ highScore (update f s) = highScore (beforeRoundCheck f s)
    /\ stored (update f s) = stored (beforeRoundCheck f s)
    /\ rockets (update f s) = rockets (beforeRoundCheck f s)
    /\ interceptors (update f s) = interceptors (beforeRoundCheck f s).
Proof.
  intros f s Hp. rewrite (update_playing f s Hp).
  destruct (roundAdvance_cells (beforeRoundCheck f s))
    as (Hg&Hm&_&_&Hh&Hst&Hl&Hr&Hro&Hin&Hrd).
  destruct (commit_cells (roundAdvance (beforeRoundCheck f s)))
    as (Kg&Km&Kh&Krd&Kl&Kr&Kst&Kro&Kin).
  rewrite Kg, Km, Kh, Krd, Kl, Kr, Kst, Kro, Kin.
  rewrite Hg, Hm, Hh, Hst, Hl, Hr, Hro, Hin, Hrd.
  unfold beforeRoundCheck in *.
  destruct (winLoss_cells (refill800 (refill500 (simulate f s))))
    as (Wm&_&_&Wrd&Wl&Wr&_&_).
  destruct (refill800_cells (refill500 (simulate f s)))
    as (_&Em&_&_&_&Erd&El&_&_&_&Er).
  destruct (refill500_cells (simulate f s)) as (_&Fm&Fs&_&_&Frd&Fr&_&_&_&Fl).
  destruct (control_fields (control_simulate f s)) as (_&Cm&Cs&_&Crd&Cl&Cr&_).
  rewrite Wm, Wrd, Wl, Wr, Em, Erd, El, Er, Fm, Frd, Fr, Fl, Fs, Cm, Crd, Cl, Cr, Cs.
  rewrite refill800_guard, refill500_guard. intuition.
Qed.

(** A click leaves the control cells alone. *)
Lemma control_click : forall x y s, control (handleCanvasClick x y s) = control s.
Proof.
  intros x y s; unfold handleCanvasClick.
  destruct (negb (GameState_eqb (gameState s) PLAYING)); auto.
  destruct (negb _); auto. destruct (nth_error _ _); auto.
Qed.


(* ------------------------------------------------------------------ *)
(** ** The 500-point refill *)

Lemma latch_step :
  forall s s', step s s' -> hasRefilledAt500 s = true -> hasRefilledAt500 s' = true.
Proof.
  intros s s' [f|x y] H.
  - destruct (GameState_eqb (gameState s) PLAYING) eqn:E.
    + assert (Hp : gameState s = PLAYING) by (destruct (gameState s); simpl in E; congruence).
      destruct (update_cells f s Hp) as (_&Hl&_). rewrite Hl, H; reflexivity.
    + rewrite update_idle; auto. intros Hp; rewrite Hp in E; discriminate.
  - destruct (control_fields (control_click x y s)) as (_&_&_&_&_&Hl&_). congruence.
Qed.

(** Once the latch is closed, the refill phase of every later frame is
    the identity, and a frame in which neither the 800-point refill nor
    the round advance fires leaves every turret with the ammunition it
    had. *)
Lemma refill500_idle :
  forall s, hasRefilledAt500 s = true -> refill500 s = s.
Proof.
  intros s H; unfold refill500, refill500_fires. rewrite H, andb_false_r. reflexivity.
Qed.

Lemma latch_steps :
  forall s s', steps s s' -> hasRefilledAt500 s = true -> hasRefilledAt500 s' = true.
Proof.
  intros s s' Hs H; induction Hs as [|s1 s2 _ IH Hst]; auto. eapply latch_step; eauto.
Qed.

Lemma quiet_frame_ammo :
  forall f s,
    refill500_fires s = false -> refill800_fires s = false ->
    roundOver (beforeRoundCheck f s) = false ->
    Forall2 worn (turrets s) (turrets (update f s)).
Proof.
  intros f s H5 H8 Hr.
  destruct (GameState_eqb (gameState s) PLAYING) eqn:E.
  - assert (Hp : gameState s = PLAYING) by (destruct (gameState s); simpl in E; congruence).
    rewrite (update_playing f s Hp), turrets_commit.
    unfold roundAdvance; rewrite Hr. unfold beforeRoundCheck.
    rewrite turrets_winLoss.
    unfold refill800 at 1. rewrite refill800_guard, H8.
    unfold refill500 at 1. rewrite refill500_guard, H5.
    apply turrets_simulate.
  - rewrite update_idle; [apply Forall2_worn_refl|].
    intros Hp; rewrite Hp in E; discriminate.
Qed.

(** C6.  In a running match of either mode, the frame that finds
    [score >= 500] with the latch open fires the refill: it closes the
    latch, and the turrets after the refill, and after the whole frame,
    are the turrets the simulation left, each active one with its
    ammunition at the [maxAmmo] it had and everything else as it was.  A
    frame with [score < 500] leaves the latch open and the refill phase
    does nothing.  Once the latch is closed it stays closed through every
    later frame and click, whatever the score: on each of them the guard
    is false, the refill phase changes nothing at all, and a frame in
    which neither the 800-point refill nor the round advance fires leaves
    every turret with the ammunition it had. *)
Theorem refill500_once :
  forall f s, gameState s = PLAYING ->
    (hasRefilledAt500 s = false -> (500 <= score s)%Z ->
       refill500_fires (simulate f s) = true
       /\ hasRefilledAt500 (update f s) = true
       /\ Forall2 refilled (turrets (simulate f s))
            (turrets (refill500 (simulate f s)))
       /\ Forall2 refilled (turrets (simulate f s)) (turrets (update f s)))
    /\ (hasRefilledAt500 s = false -> (score s < 500)%Z ->
          refill500_fires (simulate f s) = false
          /\ refill500 (simulate f s) = simulate f s
          /\ hasRefilledAt500 (update f s) = false)
    /\ (hasRefilledAt500 s = true ->
          forall s', steps s s' ->
            hasRefilledAt500 s' = true
            /\ forall f',
                 refill500_fires (simulate f' s') = false
                 /\ refill500 (simulate f' s') = simulate f' s'
                 /\ (refill800_fires s' = false ->
                     roundOver (beforeRoundCheck f' s') = false ->
                     Forall2 worn (turrets s') (turrets (update f' s')))).
Proof.
  intros f s Hp. destruct (update_cells f s Hp) as (_&Hl&_).
  split; [|split].
  - intros Hopen Hsc.
    assert (Hf : refill500_fires s = true).
    { unfold refill500_fires. rewrite Hopen. apply andb_true_intro; split; auto.
      apply Z.leb_le; exact Hsc. }
    rewrite refill500_guard, Hl, Hf, orb_true_r.
    assert (E5 : turrets (refill500 (simulate f s)) = map refill (turrets (simulate f s))).
    { unfold refill500. rewrite refill500_guard, Hf. reflexivity. }
    repeat split; auto.
    + rewrite E5. apply refilled_map.
    + rewrite (update_playing f s Hp), turrets_commit. unfold beforeRoundCheck.
      assert (E8 : turrets (refill800 (refill500 (simulate f s)))
                   = map refill (turrets (simulate f s))).
      { destruct (turrets_refill800 (refill500 (simulate f s))) as [E|E]; rewrite E, E5;
          auto using refill_twice. }
      destruct (turrets_roundAdvance (winLoss (refill800 (refill500 (simulate f s)))))
        as [E|E]; rewrite E, turrets_winLoss, E8.
      * apply refilled_map.
      * rewrite refill_twice. apply refilled_map.
  - intros Hopen Hsc.
    assert (Hf : refill500_fires s = false).
    { unfold refill500_fires. apply andb_false_intro1. apply Z.leb_gt; exact Hsc. }
    rewrite refill500_guard, Hl, Hf, Hopen. repeat split; auto.
    unfold refill500. rewrite refill500_guard, Hf. reflexivity.
  - intros Hclosed s' Hs'.
    pose proof (latch_steps Hs' Hclosed) as Hc.
    split; auto. intros f'.
    assert (Hg : refill500_fires s' = false).
    { unfold refill500_fires. rewrite Hc. apply andb_false_r. }
    rewrite refill500_guard. repeat split; auto.
    + apply refill500_idle.
      destruct (control_fields (control_simulate f' s')) as (_&_&_&_&_&Hh&_).
      rewrite Hh; exact Hc.
    + intros H8 Hr. apply quiet_frame_ammo; auto.
Qed.

(* ------------------------------------------------------------------ *)
(** ** The 800-point refill of endless mode *)

Lemma refill800_fires_iff :
  forall s, refill800_fires s = true <->
    gameMode s = ENDLESS /\ (0 < score s)%Z /\ (800 | score s)%Z
    /\ score s <> lastRefillScore s.
Proof.
  intros s; unfold refill800_fires.
  rewrite !andb_true_iff, negb_true_iff, Z.ltb_lt, !Z.eqb_eq, Z.eqb_neq.
  rewrite (Z.rem_divide (score s) 800) by discriminate.
  destruct (gameMode s); simpl; intuition discriminate.
Qed.

Lemma lastRefill_step :
  forall s s', step s s' -> refill800_fires s = false ->
    lastRefillScore s' = lastRefillScore s.
Proof.
  intros s s' [f|x y] H.
  - destruct (GameState_eqb (gameState s) PLAYING) eqn:E.
    + assert (Hp : gameState s = PLAYING) by (destruct (gameState s); simpl in E; congruence).
      destruct (update_cells f s Hp) as (_&_&Hl&_). rewrite Hl, H; reflexivity.
    + rewrite update_idle; auto. intros Hp; rewrite Hp in E; discriminate.
  - destruct (control_fields (control_click x y s)) as (_&_&_&_&_&_&Hl&_). congruence.
Qed.

Lemma refill800_quiet :
  forall s, lastRefillScore s = score s -> refill800_fires s = false.
Proof.
  intros s H; unfold refill800_fires. rewrite H, Z.eqb_refl. simpl.
  apply andb_false_r.
Qed.

Lemma refill800_no_refire :
  forall v s s', lastRefillScore s = v -> run (fun x => score x = v) s s' ->
    lastRefillScore s' = v /\ refill800_fires s' = false.
Proof.
  intros v s s' Hl Hrun; induction Hrun as [Hs|s1 s2 _ IH Hst Hs2].
  - split; auto. apply refill800_quiet; congruence.
  - destruct IH as [IH1 IH2].
    assert (lastRefillScore s2 = v) by (rewrite (lastRefill_step Hst IH2); exact IH1).
    split; auto. apply refill800_quiet; congruence.
Qed.

Lemma armed_update_after :
  forall f s, gameState s = PLAYING ->
    armed (turrets (refill800 (refill500 (simulate f s)))) ->
    armed (turrets (update f s)).
Proof.
  intros f s Hp H. rewrite (update_playing f s Hp), turrets_commit.
  unfold beforeRoundCheck.
  destruct (turrets_roundAdvance (winLoss (refill800 (refill500 (simulate f s)))))
    as [E|E]; rewrite E; auto using armed_refill.
  rewrite turrets_winLoss; exact H.
Qed.

(** What the 800-point refill does.  In a running match its guard holds
    exactly when the mode is endless and the score is a positive multiple
    of 800 other than the score of the last refill.  When it holds, the
    frame records the score as the last refill score and leaves every
    active turret at [maxAmmo]; through all later frames and clicks on
    which the score still has that value the guard is false and the refill
    does not fire.  When it does not hold, nothing is recorded. *)
Theorem refill800_once :
  forall f s, gameState s = PLAYING ->
    let fires := refill800_fires (refill500 (simulate f s)) in
    (fires = true <->
       gameMode s = ENDLESS /\ (0 < score s)%Z /\ (800 | score s)%Z
       /\ score s <> lastRefillScore s)
    /\ (fires = true ->
          lastRefillScore (update f s) = score s
          /\ armed (turrets (update f s))
          /\ forall s', run (fun x => score x = score s) (update f s) s' ->
               forall f', refill800_fires (refill500 (simulate f' s')) = false
                          /\ lastRefillScore s' = score s)
    /\ (fires = false -> lastRefillScore (update f s) = lastRefillScore s).
Proof.
  intros f s Hp fires. subst fires. rewrite refill800_guard.
  destruct (update_cells f s Hp) as (_&_&Hl&_).
  split; [apply refill800_fires_iff | split].
  - intros Hf. rewrite Hl, Hf. split; [reflexivity | split].
    + apply armed_update_after; auto.
      unfold refill800. rewrite refill800_guard, Hf. simpl. apply armed_refill.
    + intros s' Hrun f'. rewrite refill800_guard.
      assert (H0 : lastRefillScore (update f s) = score s) by (rewrite Hl, Hf; auto).
      destruct (refill800_no_refire H0 Hrun); auto.
  - intros Hf. rewrite Hl, Hf. reflexivity.
Qed.

Lemma lastRefill_cases :
  forall s s', step s s' ->
    lastRefillScore s' = lastRefillScore s \/ lastRefillScore s' = score s.
Proof.
  intros s s' [f|x y].
  - destruct (GameState_eqb (gameState s) PLAYING) eqn:E.
    + assert (Hp : gameState s = PLAYING) by (destruct (gameState s); simpl in E; congruence).
      destruct (update_cells f s Hp) as (_&_&Hl&_). rewrite Hl.
      destruct (refill800_fires s); auto.
    + rewrite update_idle; auto. intros Hp; rewrite Hp in E; discriminate.
  - destruct (control_fields (control_click x y s)) as (_&_&_&_&_&_&Hl&_). auto.
Qed.

(** The score never goes down: a frame only ever queues rewards. *)
Lemma scoreQueue_simulate :
  forall f s, (scoreQueue s <= scoreQueue (simulate f s))%Z.
Proof.
  intros f s; unfold simulate.
  set (I := fun t : Game => (scoreQueue s <= scoreQueue t)%Z).
  assert (H0 : I (spawnPhase f s)).
  { unfold I, spawnPhase. destruct (nextRocketTime s <? f_time f)%float; [|lia].
    unfold spawnRocket. destruct (length (spawnTargets s) =? 0)%nat; simpl; [lia|].
    destruct (nth_error _ _); simpl; lia. }
  set (s1 := spawnPhase f s) in *.
  assert (H1 : I (rocketsPhase s1)).
  { unfold rocketsPhase.
    assert (Hcb : forall a t, I t -> I (snd (rocketFrame a t))).
    { intros a t Ht; unfold rocketFrame.
      destruct (rocket_arrived (rocket_advance a)); simpl; auto. }
    pose proof (filterWith_inv I rocketFrame Hcb (rockets s1) s1 H0) as H'.
    destruct (filterWith rocketFrame (rockets s1) s1); exact H'. }
  set (s2 := rocketsPhase s1) in *.
  assert (H2 : I (interceptorsPhase s2)).
  { unfold interceptorsPhase.
    assert (Hcb : forall a t, I t -> I (snd (interceptorFrame a t))).
    { intros a t Ht; unfold interceptorFrame.
      destruct (interceptor_arrived (interceptor_advance a)); simpl; auto. }
    pose proof (filterWith_inv I interceptorFrame Hcb (interceptors s2) s2 H1) as H'.
    destruct (filterWith interceptorFrame (interceptors s2) s2); exact H'. }
  set (s3 := interceptorsPhase s2) in *.
  unfold warningsPhase, explosionsPhase; simpl.
  assert (Hcb : forall a t, I t -> I (snd (explosionFrame a t))).
  { intros a t Ht; unfold explosionFrame.
    assert (Hb : forall r u, I u -> I (snd (blastFrame (explosion_advance a) r u))).
    { intros r u Hu; unfold blastFrame, I in *.
      destruct (inBlast (explosion_advance a) r); simpl; auto.
      unfold ROCKET_SCORE; lia. }
    pose proof (filterWith_inv I (blastFrame (explosion_advance a)) Hb (rockets t) t Ht)
      as H'.
    destruct (filterWith (blastFrame (explosion_advance a)) (rockets t) t); exact H'. }
  pose proof (filterWith_inv I explosionFrame Hcb (explosions s3) s3 H2) as H3.
  destruct (filterWith explosionFrame (explosions s3) s3); exact H3.
Qed.

Lemma score_step :
  forall s s', step s s' -> scoreQueue s = 0%Z ->
    scoreQueue s' = 0%Z /\ (score s <= score s')%Z.
Proof.
  intros s s' [f|x y] Hq.
  - destruct (GameState_eqb (gameState s) PLAYING) eqn:E.
    + assert (Hp : gameState s = PLAYING) by (destruct (gameState s); simpl in E; congruence).
      rewrite (update_playing f s Hp).
      destruct (commit_score (roundAdvance (beforeRoundCheck f s))) as [Kq Ks].
      rewrite Kq, Ks. split; [reflexivity|]. unfold beforeRoundCheck.
      destruct (roundAdvance_cells (winLoss (refill800 (refill500 (simulate f s)))))
        as (_&_&R1&R2&_).
      destruct (winLoss_cells (refill800 (refill500 (simulate f s)))) as (_&W1&W2&_).
      destruct (refill800_cells (refill500 (simulate f s))) as (_&_&E1&E2&_).
      destruct (refill500_cells (simulate f s)) as (_&_&F1&F2&_).
      destruct (control_fields (control_simulate f s)) as (_&_&C1&_).
      pose proof (scoreQueue_simulate f s) as Hm.
      rewrite R1, R2, W1, W2, E1, E2, F1, F2, C1. lia.
    + rewrite update_idle; [split; [auto | lia]|].
      intros Hp; rewrite Hp in E; discriminate.
  - destruct (control_fields (control_click x y s)) as (_&_&Hs&_).
    split; [|lia]. unfold handleCanvasClick.
    destruct (negb (GameState_eqb (gameState s) PLAYING)); auto.
    destruct (negb _); auto. destruct (nth_error _ _); auto.
Qed.

(** Between frames the queue is empty and the score only grows
    (section 3 of the specification). *)
Lemma score_monotone :
  forall s s', steps s s' -> scoreQueue s = 0%Z ->
    scoreQueue s' = 0%Z /\ (score s <= score s')%Z.
Proof.
  intros s s' Hs Hq; induction Hs as [|s1 s2 _ IH Hst]; [split; [auto | lia]|].
  destruct IH as [I1 I2]. destruct (score_step Hst I1) as [J1 J2]. split; [auto | lia].
Qed.

(** C4 does not hold of the code.  In [doubleKill] each of the two
    rockets is outside every explosion before the frame and destroyed in
    the frame, so the frame queues 20 points twice and the score goes from
    780 to 820: it has crossed 800, the guard of line 426 is false before
    and after, and no turret is refilled.  The score being at 820 or more
    in every later state of the match, no later frame finds it at 800. *)
Theorem score_jumps_over_800 :
  gameState doubleKill = PLAYING
  /\ gameMode doubleKill = ENDLESS
  /\ score doubleKill = 780%Z
  /\ map (fun r => existsb (fun e => inBlast e r) (explosions doubleKill))
       (rockets doubleKill) = [false; false]
  /\ rockets (update quietFrame doubleKill) = []
  /\ score (update quietFrame doubleKill) = 820%Z
  /\ refill800_fires doubleKill = false
  /\ refill800_fires (update quietFrame doubleKill) = false
  /\ turrets (update quietFrame doubleKill) = turrets doubleKill
  /\ (forall s', steps (update quietFrame doubleKill) s' ->
        (820 <= score s')%Z /\ lastRefillScore s' <> 800%Z).
Proof.
  assert (Hlater : forall s', steps (update quietFrame doubleKill) s' ->
            (820 <= score s')%Z /\ lastRefillScore s' <> 800%Z).
  { intros s' H.
    assert (Hinv : scoreQueue s' = 0%Z /\ (820 <= score s')%Z
                   /\ (lastRefillScore s' = 0 \/ 820 <= lastRefillScore s')%Z).
    { induction H as [|s1 s2 _ IH Hst].
      - vm_compute. repeat split; auto; discriminate.
      - destruct IH as (I1 & I2 & I3). destruct (score_step Hst I1) as [J1 J2].
        destruct (lastRefill_cases Hst) as [Hl|Hl]; rewrite Hl;
          repeat split; auto; lia. }
    destruct Hinv as (_ & Hs & [H0|H0]); split; auto; lia. }
  repeat match goal with |- _ /\ _ => split end; try exact Hlater;
    vm_compute; reflexivity.
Qed.

(* ------------------------------------------------------------------ *)
(** ** Round advancement *)

Lemma roundOver_iff :
  forall s, roundOver s = true <->
    rockets s = [] /\ interceptors s = []
    /\ Forall (fun t => t_ammo t = 0%Z) (turrets s).
Proof.
  intros s; unfold roundOver. rewrite !andb_true_iff, forallb_forall, Forall_forall.
  rewrite !Nat.eqb_eq, !length_zero_iff_nil.
  split.
  - intros [[H1 H2] H3]. repeat split; auto. intros t Ht. apply Z.eqb_eq; auto.
  - intros (H1 & H3 & H2). repeat split; auto. intros t Ht. apply Z.eqb_eq; auto.
Qed.

(** C5.  In a running match the frame adds one to [round] exactly when,
    at the check of line 447, no rocket and no interceptor is left and the
    ammunition of every turret is 0; otherwise [round] is unchanged and
    the check leaves the turrets as they are.  On the frame that advances
    the round the turrets are those found at the check, each still-active
    one with its ammunition at the [maxAmmo] it had, its position,
    [maxAmmo] and [active] untouched, and each inactive one as it was. *)
Theorem round_advance_iff :
  forall f s, gameState s = PLAYING ->
    let m := beforeRoundCheck f s in
    (round (update f s) = (round s + 1)%Z <->
       rockets m = [] /\ interceptors m = []
       /\ Forall (fun t => t_ammo t = 0%Z) (turrets m))
    /\ (round (update f s) <> (round s + 1)%Z ->
          round (update f s) = round s /\ turrets (update f s) = turrets m)
    /\ rockets (update f s) = rockets m
    /\ interceptors (update f s) = interceptors m
    /\ (round (update f s) = (round s + 1)%Z ->
          Forall2 refilled (turrets m) (turrets (update f s))).
Proof.
  intros f s Hp m. destruct (update_cells f s Hp) as (_&_&_&Hr&_&_&_&Hro&Hin).
  fold m in Hr, Hro, Hin. rewrite Hr, Hro, Hin, <- roundOver_iff.
  assert (Ht : turrets (update f s)
               = if roundOver m then map refill (turrets m) else turrets m).
  { rewrite (update_playing f s Hp), turrets_commit. fold m.
    unfold roundAdvance. destruct (roundOver m); reflexivity. }
  rewrite Ht. destruct (roundOver m) eqn:E.
  - repeat split; auto; try (intros; lia). intros _. apply refilled_map.
  - repeat split; auto; try (intros; lia); try discriminate.
Qed.

(* ------------------------------------------------------------------ *)
(** ** Win and loss *)


Lemma allDown_progression :
  forall s, allTurretsDown (commit (roundAdvance (winLoss (refill800 (refill500 s)))))
            = allTurretsDown (refill800 (refill500 s)).
Proof.
  intros s; unfold allTurretsDown. rewrite turrets_commit.
  destruct (turrets_roundAdvance (winLoss (refill800 (refill500 s)))) as [E|E];
    rewrite E, ?allDown_refill, turrets_winLoss; reflexivity.
Qed.





(* ------------------------------------------------------------------ *)
(** ** A wrecked turret with ammunition blocks the rounds *)

Lemma stranded_worn : forall t t', worn t t' -> stranded t -> stranded t'.
Proof.
  unfold worn, stranded; intros t t' (_&_&Ha&_&Hact) [H1 H2]; split.
  - destruct (t_active t'); auto. rewrite Hact in H1; auto.
  - lia.
Qed.

Lemma Exists_stranded_worn :
  forall ts ts', Forall2 worn ts ts' -> Exists stranded ts -> Exists stranded ts'.
Proof.
  induction 1 as [|t t' ts ts' Hw _ IH]; intros He; inversion He; subst.
  - left; eauto using stranded_worn.
  - right; auto.
Qed.

Lemma Exists_stranded_refill :
  forall ts, Exists stranded ts -> Exists stranded (map refill ts).
Proof.
  induction 1 as [t ts [H1 H2]|t ts _ IH]; simpl.
  - left. rewrite refill_inactive; auto. split; auto.
  - right; auto.
Qed.

Lemma stuck_not_roundOver : forall s, stuck s -> roundOver s = false.
Proof.
  intros s H. destruct (roundOver s) eqn:E; auto.
  apply roundOver_iff in E. destruct E as (_&_&Hz).
  unfold stuck in H. rewrite Exists_exists in H. destruct H as (t & Ht & _ & Hpos).
  rewrite Forall_forall in Hz. specialize (Hz t Ht). lia.
Qed.

(** The turret [nearestTurret] selects is active and has ammunition. *)
Lemma nearestTurret_spec :
  forall ts index x y acc,
    let r := fst (nearestTurret ts index x y acc) in
    r = fst acc
    \/ ((index <= r)%Z
        /\ exists t, nth_error ts (Z.to_nat (r - index)) = Some t
                     /\ t_active t = true /\ (0 < t_ammo t)%Z).
Proof.
  induction ts as [|t ts IH]; intros index x y acc; simpl; auto.
  match goal with
  | |- context [nearestTurret ts (index + 1)%Z x y ?a] =>
      destruct (IH (index + 1)%Z x y a) as [E|(Hle & t' & Hn & Ha & Hp)];
      set (acc' := a) in *
  end.
  - rewrite E. subst acc'.
    destruct (t_active t && (0 <? t_ammo t)%Z) eqn:G; auto.
    match goal with |- context [if ?c then _ else _] => destruct c end; auto.
    right. simpl. split; [lia|]. exists t. rewrite Z.sub_diag. simpl.
    apply andb_true_iff in G. destruct G as [G1 G2]. apply Z.ltb_lt in G2. auto.
  - right. split; [lia|]. exists t'.
    replace (Z.to_nat (fst (nearestTurret ts (index + 1)%Z x y acc') - index))
      with (S (Z.to_nat (fst (nearestTurret ts (index + 1)%Z x y acc') - (index + 1))))
      by lia.
    simpl. auto.
Qed.

Lemma Exists_modify_nth :
  forall (A : Type) (P : A -> Prop) (f : A -> A) n l,
    (forall a, nth_error l n = Some a -> P a -> P (f a)) ->
    Exists P l -> Exists P (modify_nth n f l).
Proof.
  intros A P f n l; revert n; induction l as [|a l IH]; intros n Hf He.
  - inversion He.
  - destruct n; simpl.
    + inversion He; subst; [left; apply Hf; auto | right; auto].
    + inversion He; subst; [left; auto | right; apply IH; auto].
Qed.

Lemma stuck_click : forall x y s, stuck s -> stuck (handleCanvasClick x y s).
Proof.
  intros x y s H; unfold handleCanvasClick.
  destruct (negb (GameState_eqb (gameState s) PLAYING)); auto.
  destruct (negb _) eqn:E; auto.
  destruct (nth_error _ _) as [turret|] eqn:N; auto.
  unfold stuck; simpl. apply Exists_modify_nth; auto.
  intros a Ha [Hoff _]. exfalso.
  destruct (nearestTurret_spec (turrets s) 0 x y ((-1)%Z, PrimFloat.infinity))
    as [E1|(_ & t & Hn & Hact & _)].
  - simpl in E1. rewrite E1 in E. discriminate.
  - rewrite Z.sub_0_r in Hn. congruence.
Qed.

Lemma stuck_update : forall f s, stuck s -> stuck (update f s) /\ round (update f s) = round s
  /\ roundOver (beforeRoundCheck f s) = false.
Proof.
  intros f s H.
  assert (Hsim : stuck (simulate f s)).
  { exact (Exists_stranded_worn (turrets_simulate f s) H). }
  assert (Hall : stuck (commit (roundAdvance (winLoss (refill800 (refill500 (simulate f s))))))).
  { unfold stuck. apply progression_turrets with (P := Exists stranded); auto.
    apply Exists_stranded_refill. }
  assert (Hm : stuck (beforeRoundCheck f s)).
  { unfold stuck, beforeRoundCheck. rewrite turrets_winLoss.
    destruct (turrets_refill800 (refill500 (simulate f s))) as [E|E]; rewrite E;
      destruct (turrets_refill500 (simulate f s)) as [E'|E']; rewrite E';
      auto using Exists_stranded_refill. }
  pose proof (stuck_not_roundOver Hm) as Hro.
  destruct (GameState_eqb (gameState s) PLAYING) eqn:E.
  - assert (Hp : gameState s = PLAYING) by (destruct (gameState s); simpl in E; congruence).
    destruct (update_cells f s Hp) as (_&_&_&Hr&_). rewrite Hr, Hro.
    rewrite (update_playing f s Hp). auto.
  - rewrite update_idle; auto. intros Hp; rewrite Hp in E; discriminate.
Qed.

(** C9.  Once some turret is inactive with ammunition left, this remains
    so through every later frame and click of the match; on every later
    frame the round check of line 447 fails, and [round] keeps its value. *)
Theorem stranded_turret_blocks_rounds :
  forall s s', stuck s -> steps s s' ->
    stuck s' /\ round s' = round s
    /\ forall f, roundOver (beforeRoundCheck f s') = false
                 /\ round (update f s') = round s.
Proof.
  intros s s' H Hs.
  assert (Hinv : stuck s' /\ round s' = round s).
  { induction Hs as [|s1 s2 _ IH Hst]; auto.
    destruct IH as [I1 I2]. destruct Hst as [f|x y].
    - destruct (stuck_update f I1) as (A & B & _). split; auto; congruence.
    - split; [apply stuck_click; auto|].
      destruct (control_fields (control_click x y s1)) as (_&_&_&_&Hr&_). congruence. }
  destruct Hinv as [I1 I2]. repeat split; auto.
  - apply (stuck_update f I1).
  - destruct (stuck_update f I1) as (_ & B & _). congruence.
Qed.

(* ------------------------------------------------------------------ *)
(** ** Spawning *)

Lemma spawnTargets_nil :
  forall s, (forall c, In c (cities s) -> c_active c = false) ->
            (forall t, In t (turrets s) -> t_active t = false) ->
            spawnTargets s = [].
Proof.
  intros s Hc Ht; unfold spawnTargets.
  assert (E1 : filter c_active (cities s) = []).
  { induction (cities s) as [|c l IH]; simpl; auto.
    rewrite (Hc c) by (left; auto). apply IH. intros; apply Hc; right; auto. }
  assert (E2 : filter t_active (turrets s) = []).
  { induction (turrets s) as [|t l IH]; simpl; auto.
    rewrite (Ht t) by (left; auto). apply IH. intros; apply Ht; right; auto. }
  rewrite E1, E2; reflexivity.
Qed.

Lemma spawnTargets_In :
  forall s target, In target (spawnTargets s) ->
    (exists c, In c (cities s) /\ c_active c = true /\ target = inl c)
    \/ (exists t, In t (turrets s) /\ t_active t = true /\ target = inr t).
Proof.
  intros s target H; unfold spawnTargets in H.
  apply in_app_or in H. destruct H as [H|H]; apply in_map_iff in H;
    destruct H as (e & He & Hin); apply filter_In in Hin; destruct Hin; eauto.
Qed.

Lemma spawnTargets_cons :
  forall s, (exists c, In c (cities s) /\ c_active c = true)
            \/ (exists t, In t (turrets s) /\ t_active t = true) ->
            spawnTargets s <> [].
Proof.
  intros s H E. unfold spawnTargets in E. apply app_eq_nil in E. destruct E as [E1 E2].
  apply map_eq_nil in E1. apply map_eq_nil in E2.
  destruct H as [(c & Hc & Ha)|(t & Ht & Ha)].
  - assert (Hin : In c (filter c_active (cities s))) by (apply filter_In; auto).
    rewrite E1 in Hin; inversion Hin.
  - assert (Hin : In t (filter t_active (turrets s))) by (apply filter_In; auto).
    rewrite E2 in Hin; inversion Hin.
Qed.

(** C7.  With no active city and no active turret [spawnRocket] returns
    the state as it found it.  With at least one, it appends exactly one
    rocket, which starts at [(rnd * width, 0)] and whose end point is the
    position of an active city or of an active turret. *)
Theorem spawnRocket_spec :
  forall width rnd pick s,
    ((forall c, In c (cities s) -> c_active c = false)
     /\ (forall t, In t (turrets s) -> t_active t = false) ->
     spawnRocket width rnd pick s = s)
    /\ ((exists c, In c (cities s) /\ c_active c = true)
        \/ (exists t, In t (turrets s) /\ t_active t = true) ->
        exists r,
          rockets (spawnRocket width rnd pick s) = rockets s ++ [r]
          /\ r_start r = mkPoint (rnd * width)%float 0%float
          /\ r_current r = r_start r
          /\ ((exists c, In c (cities s) /\ c_active c = true
                         /\ r_end r = mkPoint (c_x c) (c_y c))
              \/ (exists t, In t (turrets s) /\ t_active t = true
                            /\ r_end r = mkPoint (t_x t) (t_y t)))).
Proof.
  intros width rnd pick s; split.
  - intros [Hc Ht]. unfold spawnRocket. rewrite (spawnTargets_nil s Hc Ht). reflexivity.
  - intros H. apply spawnTargets_cons in H. unfold spawnRocket.
    destruct (spawnTargets s) as [|t0 ts] eqn:E; [congruence|].
    change (length (t0 :: ts) =? 0)%nat with false. cbv iota.
    assert (Hlt : (pick mod length (t0 :: ts) < length (t0 :: ts))%nat).
    { apply Nat.mod_upper_bound. simpl; discriminate. }
    destruct (nth_error (t0 :: ts) (pick mod length (t0 :: ts))) as [target|] eqn:N.
    + eexists. split; [reflexivity|]. simpl. repeat split.
      apply nth_error_In in N. rewrite <- E in N.
      destruct (spawnTargets_In s target N) as [(c & Hc & Ha & ->)|(t & Ht & Ha & ->)];
        simpl; [left|right]; eauto.
    + apply nth_error_None in N. lia.
Qed.

(* ------------------------------------------------------------------ *)
(** ** Ground impact *)

Lemma hitTurret_frame : forall rx t, turretAfterImpact rx t (hitTurret rx t).
Proof.
  intros rx t; unfold turretAfterImpact, hitTurret.
  destruct (t_active t) eqn:A, (inStrip (t_x t) rx) eqn:I; simpl;
    repeat split; auto; try discriminate.
Qed.

Lemma hitCity_frame : forall rx c, cityAfterImpact rx c (hitCity rx c).
Proof.
  intros rx c; unfold cityAfterImpact, hitCity.
  destruct (c_active c) eqn:A, (inStrip (c_x c) rx) eqn:I; simpl;
    repeat split; auto; try discriminate.
Qed.

Lemma Forall2_map_r :
  forall (A : Type) (R : A -> A -> Prop) (f : A -> A),
    (forall a, R a (f a)) -> forall l, Forall2 R l (map f l).
Proof. intros A R f H; induction l; simpl; constructor; auto. Qed.

(** C10.  The ground impact of a rocket (the callback of lines 327-350,
    which resolves it at the x of the rocket's new position) keeps the
    number and order of turrets and cities and, of each one, [x], [y],
    [ammo] and [maxAmmo]; one outside the 25 px strip, or already
    inactive, is left exactly as it was, and an active one inside the
    strip only has [active] set to [false]. *)
Theorem impact_frame :
  forall rocket s,
    let rx := p_x (r_current (rocket_advance rocket)) in
    let s' := snd (rocketFrame rocket s) in
    (rocket_arrived (rocket_advance rocket) = true ->
       Forall2 (turretAfterImpact rx) (turrets s) (turrets s')
       /\ Forall2 (cityAfterImpact rx) (cities s) (cities s'))
    /\ (rocket_arrived (rocket_advance rocket) = false -> s' = s).
Proof.
  intros rocket s rx s'; subst s'; unfold rocketFrame.
  destruct (rocket_arrived (rocket_advance rocket)); simpl; split;
    try discriminate; auto.
  intros _; split; apply Forall2_map_r.
  - apply hitTurret_frame.
  - apply hitCity_frame.
Qed.

(* ------------------------------------------------------------------ *)
(** ** Explosions *)

Lemma explosion_after_gone :
  forall e n k, explosion_after n e = None -> explosion_after (k + n) e = None.
Proof.
  intros e n k H; induction k as [|k IH]; simpl; auto. rewrite IH; reflexivity.
Qed.

(** The whole life of an explosion of either size, frame by frame. *)
Lemma life_small :
  forall pos,
    forallb (fun k => match explosion_after k (newExplosion pos 55) with
                      | Some e => explosion_ok e
                      | None => true
                      end) (seq 0 80) = true
    /\ explosion_after 80 (newExplosion pos 55) = None.
Proof. intros pos; vm_compute; split; reflexivity. Qed.

Lemma life_large :
  forall pos,
    forallb (fun k => match explosion_after k (newExplosion pos EXPLOSION_MAX_RADIUS) with
                      | Some e => explosion_ok e
                      | None => true
                      end) (seq 0 91) = true
    /\ explosion_after 91 (newExplosion pos EXPLOSION_MAX_RADIUS) = None.
Proof. intros pos; vm_compute; split; reflexivity. Qed.

Lemma life_ok :
  forall e0 n,
    forallb (fun k => match explosion_after k e0 with
                      | Some e => explosion_ok e
                      | None => true
                      end) (seq 0 n) = true ->
    explosion_after n e0 = None ->
    forall k e, explosion_after k e0 = Some e -> explosion_ok e = true.
Proof.
  intros e0 n Hall Hend k e Hk.
  destruct (Nat.lt_ge_cases k n) as [Hlt|Hge].
  - rewrite forallb_forall in Hall.
    specialize (Hall k). rewrite Hk in Hall. apply Hall.
    apply in_seq; lia.
  - replace k with ((k - n) + n)%nat in Hk by lia.
    rewrite (explosion_after_gone e0 n (k - n) Hend) in Hk. discriminate.
Qed.

Lemma lawful_ok : forall e, lawful e -> explosion_ok e = true.
Proof.
  intros e (pos & mr & k & [->| ->] & Hk).
  - destruct (life_small pos) as [H1 H2]. exact (life_ok _ _ H1 H2 k Hk).
  - destruct (life_large pos) as [H1 H2]. exact (life_ok _ _ H1 H2 k Hk).
Qed.

Lemma lawful_new_small : forall pos, lawful (mkExplosion pos 2 55 true 1).
Proof. intros pos; exists pos, 55%float, 0%nat; split; auto. Qed.

Lemma lawful_new_large :
  forall pos, lawful (mkExplosion pos 2 EXPLOSION_MAX_RADIUS true 1).
Proof. intros pos; exists pos, EXPLOSION_MAX_RADIUS, 0%nat; split; auto. Qed.

Lemma lawful_advance :
  forall e, lawful e -> explosion_alive (explosion_advance e) = true ->
    lawful (explosion_advance e).
Proof.
  intros e (pos & mr & k & Hmr & Hk) Ha. exists pos, mr, (S k); split; auto.
  simpl. rewrite Hk, Ha. reflexivity.
Qed.

(** What a filter keeps, given what its callback keeps. *)
Lemma filterWith_Forall :
  forall (A S : Type) (P Q : A -> Prop) (cb : A -> S -> option A * S),
    (forall a s a', P a -> fst (cb a s) = Some a' -> Q a') ->
    forall l s, Forall P l -> Forall Q (fst (filterWith cb l s)).
Proof.
  intros A S P Q cb Hcb; induction l as [|a l IH]; intros s Hl; simpl; auto.
  inversion Hl; subst. specialize (Hcb a s).
  destruct (cb a s) as [keep s1]. specialize (IH s1 H2).
  destruct (filterWith cb l s1) as [rest s2]. simpl in *.
  destruct keep; auto.
Qed.

Lemma lawfulStore_push :
  forall e s, lawful e -> lawfulStore s -> lawfulStore (pushExplosion e s).
Proof.
  unfold lawfulStore, pushExplosion; simpl; intros e s He Hs.
  apply Forall_app; split; auto.
Qed.

Lemma lawfulStore_simulate : forall f s, lawfulStore s -> lawfulStore (simulate f s).
Proof.
  intros f s H; unfold simulate.
  assert (H0 : lawfulStore (spawnPhase f s)).
  { unfold spawnPhase. destruct (nextRocketTime s <? f_time f)%float; auto.
    unfold spawnRocket. destruct (length (spawnTargets s) =? 0)%nat; auto.
    destruct (nth_error _ _); auto. }
  set (s1 := spawnPhase f s) in *.
  assert (H1 : lawfulStore (rocketsPhase s1)).
  { unfold rocketsPhase.
    assert (Hcb : forall a t, lawfulStore t -> lawfulStore (snd (rocketFrame a t))).
    { intros a t Ht; unfold rocketFrame.
      destruct (rocket_arrived (rocket_advance a)); simpl; auto.
      apply (lawfulStore_push (lawful_new_small _) Ht). }
    pose proof (filterWith_inv lawfulStore rocketFrame Hcb (rockets s1) s1 H0) as H'.
    destruct (filterWith rocketFrame (rockets s1) s1); exact H'. }
  set (s2 := rocketsPhase s1) in *.
  assert (H2 : lawfulStore (interceptorsPhase s2)).
  { unfold interceptorsPhase.
    assert (Hcb : forall a t, lawfulStore t -> lawfulStore (snd (interceptorFrame a t))).
    { intros a t Ht; unfold interceptorFrame.
      destruct (interceptor_arrived (interceptor_advance a)); simpl; auto.
      apply (lawfulStore_push (lawful_new_large _) Ht). }
    pose proof (filterWith_inv lawfulStore interceptorFrame Hcb (interceptors s2) s2 H1) as H'.
    destruct (filterWith interceptorFrame (interceptors s2) s2); exact H'. }
  set (s3 := interceptorsPhase s2) in *.
  unfold warningsPhase, explosionsPhase, lawfulStore in *.
  assert (Hcb : forall a t a', lawful a -> fst (explosionFrame a t) = Some a' -> lawful a').
  { intros a t a' Ha; unfold explosionFrame.
    destruct (filterWith (blastFrame (explosion_advance a)) (rockets t) t).
    simpl. destruct (explosion_alive (explosion_advance a)) eqn:L; [|discriminate].
    intros E; inversion E; subst. apply lawful_advance; auto. }
  pose proof (@filterWith_Forall _ _ lawful lawful explosionFrame Hcb (explosions s3) s3 H2) as H3.
  destruct (filterWith explosionFrame (explosions s3) s3); exact H3.
Qed.

Lemma explosions_progression :
  forall s, explosions (commit (roundAdvance (winLoss (refill800 (refill500 s)))))
            = explosions s.
Proof.
  intros s; unfold commit, roundAdvance, winLoss, refill800, refill500, refillTurrets.
  repeat match goal with |- context [if ?c then _ else _] => destruct c end;
    reflexivity.
Qed.

Lemma lawfulStore_step : forall s s', step s s' -> lawfulStore s -> lawfulStore s'.
Proof.
  intros s s' [f|x y] H.
  - unfold update. destruct (negb _); auto. unfold beforeRoundCheck, lawfulStore.
    rewrite explosions_progression. apply lawfulStore_simulate; auto.
  - unfold handleCanvasClick. destruct (negb _); auto. destruct (negb _); auto.
    destruct (nth_error _ _); auto.
Qed.

(** C3, as the code has it.  Through a whole match, from [startGame] on,
    every explosion in the store has at every frame a radius above 0 and
    below [maxRadius + EXPLOSION_SPEED], and below [maxRadius] as long as
    it is growing; the next frame does not lower the radius of a growing
    explosion and does not raise that of a shrinking one. *)
Theorem explosion_radius_bounds :
  forall mode container s0 s e,
    steps (startGame mode container s0) s ->
    In e (explosions s) ->
    (0 <? e_radius e)%float = true
    /\ (e_radius e <? e_maxRadius e + EXPLOSION_SPEED)%float = true
    /\ (e_growing e = true -> (e_radius e <? e_maxRadius e)%float = true)
    /\ (e_growing e = true ->
          (e_radius e <=? e_radius (explosion_advance e))%float = true)
    /\ (e_growing e = false ->
          (e_radius (explosion_advance e) <=? e_radius e)%float = true).
Proof.
  intros mode container s0 s e Hs Hin.
  assert (Hl : lawfulStore s).
  { clear Hin. induction Hs as [|s1 s2 _ IH Hst].
    - unfold lawfulStore, startGame. destruct container as [[w h]|]; simpl; constructor.
    - eapply lawfulStore_step; eauto. }
  unfold lawfulStore in Hl. rewrite Forall_forall in Hl.
  pose proof (lawful_ok (Hl e Hin)) as Hok. unfold explosion_ok in Hok.
  rewrite !andb_true_iff in Hok. destruct Hok as (((A & B) & C) & D).
  split; [exact A | split; [exact B | split; [|split]]].
  - intros G; rewrite G in C; exact C.
  - intros G; rewrite G in D; exact D.
  - intros G; rewrite G in D; exact D.
Qed.

(** C3 as stated fails: thirty frames after the rocket of [impactGame]
    hit the ground its explosion has a radius above its [maxRadius]. *)
Lemma explosion_exceeds_maxRadius :
  exists e, explosions (Nat.iter 30 (update quietFrame) impactGame) = [e]
            /\ e_maxRadius e = 55%float
            /\ (e_maxRadius e <? e_radius e)%float = true
            /\ (e_radius e <=? e_maxRadius e)%float = false.
Proof. eexists; vm_compute; repeat split. Qed.

(* ------------------------------------------------------------------ *)
(** ** Degenerate geometry: start = destination *)

(** Facts of binary64 arithmetic, from the specification of the
    primitive operations. *)
Lemma float_of_SF : forall x sf, Prim2SF x = sf -> x = SF2Prim sf.
Proof. intros x sf H; rewrite <- H, SF2Prim_Prim2SF; reflexivity. Qed.

Lemma sub_self : forall x : float, (x - x = 0 \/ x - x = PrimFloat.nan)%float.
Proof.
  intros x. pose proof (FloatAxioms.sub_spec x x) as H. unfold SF64sub, SFsub in H.
  destruct (Prim2SF x) as [s|s| |s m e].
  - left. apply float_of_SF in H. rewrite H. destruct s; reflexivity.
  - right. apply float_of_SF in H. rewrite H. destruct s; reflexivity.
  - right. apply float_of_SF in H. rewrite H. reflexivity.
  - left. rewrite Z.sub_diag in H. simpl in H.
    apply float_of_SF in H. rewrite H. reflexivity.
Qed.

Lemma mul_nan_l : forall y : float, (PrimFloat.nan * y)%float = PrimFloat.nan.
Proof.
  intros y. pose proof (FloatAxioms.mul_spec PrimFloat.nan y) as H.
  replace (Prim2SF PrimFloat.nan) with S754_nan in H by reflexivity.
  unfold SF64mul, SFmul in H. apply float_of_SF in H. exact H.
Qed.

Lemma add_nan_r : forall x : float, (x + PrimFloat.nan)%float = PrimFloat.nan.
Proof.
  intros x. pose proof (FloatAxioms.add_spec x PrimFloat.nan) as H.
  replace (Prim2SF PrimFloat.nan) with S754_nan in H by reflexivity.
  unfold SF64add, SFadd in H. apply float_of_SF in H.
  destruct (Prim2SF x); exact H.
Qed.

Lemma leb_nan_r : forall x : float, (x <=? PrimFloat.nan)%float = false.
Proof.
  intros x. rewrite FloatAxioms.leb_spec.
  replace (Prim2SF PrimFloat.nan) with S754_nan by reflexivity.
  unfold SFleb, SFcompare. destruct (Prim2SF x); reflexivity.
Qed.

Lemma leb_nan_l : forall x : float, (PrimFloat.nan <=? x)%float = false.
Proof.
  intros x. rewrite FloatAxioms.leb_spec.
  replace (Prim2SF PrimFloat.nan) with S754_nan by reflexivity.
  unfold SFleb, SFcompare. reflexivity.
Qed.

(** With a zero or NaN difference in both coordinates the unit vector is
    NaN in both. *)
Lemma unit_vector_nan :
  forall dx dy : float,
    (dx = 0 \/ dx = PrimFloat.nan)%float -> (dy = 0 \/ dy = PrimFloat.nan)%float ->
    (dx / PrimFloat.sqrt (dx * dx + dy * dy) = PrimFloat.nan
     /\ dy / PrimFloat.sqrt (dx * dx + dy * dy) = PrimFloat.nan)%float.
Proof. intros dx dy [-> | ->] [-> | ->]; split; reflexivity. Qed.

(** Lines 328-332 and 353-357 when start and destination coincide: the
    new position is NaN in both coordinates, whatever the old one was. *)
Lemma advance_degenerate :
  forall (p current : Point float) (speed : float),
    advance p p current speed = mkPoint PrimFloat.nan PrimFloat.nan.
Proof.
  intros p current speed; unfold advance; simpl.
  destruct (unit_vector_nan (sub_self (p_x p)) (sub_self (p_y p))) as [-> ->].
  rewrite mul_nan_l, !add_nan_r. reflexivity.
Qed.

Lemma rocket_degenerate :
  forall rocket : Rocket float, r_start rocket = r_end rocket ->
    r_current (rocket_advance rocket) = mkPoint PrimFloat.nan PrimFloat.nan
    /\ rocket_arrived (rocket_advance rocket) = false.
Proof.
  intros rocket H; unfold rocket_advance.
  rewrite <- H, advance_degenerate. unfold rocket_arrived; simpl.
  split; [reflexivity | apply leb_nan_r].
Qed.

Lemma interceptor_degenerate :
  forall inter, i_start inter = i_target inter ->
    adrift (interceptor_advance inter)
    /\ interceptor_arrived (interceptor_advance inter) = false.
Proof.
  intros inter H; unfold interceptor_advance.
  rewrite <- H, advance_degenerate. unfold adrift, interceptor_arrived; simpl.
  repeat split; apply leb_nan_l.
Qed.

Lemma adrift_fixed :
  forall inter, adrift inter -> interceptor_advance inter = inter.
Proof.
  intros [st tg cur sp ix] [H1 H2]; simpl in *; subst.
  unfold interceptor_advance; cbn [i_start i_target i_current i_speed i_turretIndex].
  rewrite advance_degenerate. reflexivity.
Qed.

Lemma adrift_kept :
  forall inter s, adrift inter -> interceptorFrame inter s = (Some inter, s).
Proof.
  intros inter s H; unfold interceptorFrame.
  rewrite (adrift_fixed H).
  destruct H as [H1 H2]. unfold interceptor_arrived. rewrite H2; simpl.
  rewrite leb_nan_l. reflexivity.
Qed.

(** An element its callback always keeps unchanged stays in the array. *)
Lemma filterWith_keeps :
  forall (A S : Type) (cb : A -> S -> option A * S) (a : A),
    (forall s, fst (cb a s) = Some a) ->
    forall l s, In a l -> In a (fst (filterWith cb l s)).
Proof.
  intros A S cb a Hk; induction l as [|b l IH]; intros s Hin; simpl; [inversion Hin|].
  destruct (cb b s) as [keep s1] eqn:E. specialize (IH s1).
  destruct (filterWith cb l s1) as [rest s2]; simpl in *.
  destruct Hin as [->|Hin].
  - specialize (Hk s). rewrite E in Hk; simpl in Hk. subst keep. left; reflexivity.
  - destruct keep; [right|]; auto.
Qed.

Lemma interceptors_simulate :
  forall f s inter, adrift inter -> In inter (interceptors s) ->
    In inter (interceptors (simulate f s)).
Proof.
  intros f s inter Ha Hin; unfold simulate.
  assert (H0 : In inter (interceptors (spawnPhase f s))).
  { unfold spawnPhase. destruct (nextRocketTime s <? f_time f)%float; auto.
    unfold spawnRocket. destruct (length (spawnTargets s) =? 0)%nat; auto.
    destruct (nth_error _ _); auto. }
  set (s1 := spawnPhase f s) in *.
  assert (H1 : In inter (interceptors (rocketsPhase s1))).
  { unfold rocketsPhase.
    assert (Hcb : forall a t, In inter (interceptors t)
                              -> In inter (interceptors (snd (rocketFrame a t)))).
    { intros a t Ht; unfold rocketFrame.
      destruct (rocket_arrived (rocket_advance a)); simpl; auto. }
    pose proof (filterWith_inv (fun t => In inter (interceptors t)) rocketFrame Hcb
                  (rockets s1) s1 H0) as H'.
    destruct (filterWith rocketFrame (rockets s1) s1); exact H'. }
  set (s2 := rocketsPhase s1) in *.
  assert (H2 : In inter (interceptors (interceptorsPhase s2))).
  { unfold interceptorsPhase.
    pose proof (@filterWith_keeps _ _ interceptorFrame inter
                  (fun t => f_equal fst (adrift_kept t Ha)) (interceptors s2) s2 H1) as H'.
    destruct (filterWith interceptorFrame (interceptors s2) s2); exact H'. }
  set (s3 := interceptorsPhase s2) in *.
  unfold warningsPhase, explosionsPhase; simpl.
  assert (Hcb : forall a t, In inter (interceptors t)
                            -> In inter (interceptors (snd (explosionFrame a t)))).
  { intros a t Ht; unfold explosionFrame.
    assert (Hb : forall r u, In inter (interceptors u)
                   -> In inter (interceptors (snd (blastFrame (explosion_advance a) r u)))).
    { intros r u Hu; unfold blastFrame.
      match goal with |- context [if ?c then _ else _] => destruct c end; simpl; auto. }
    pose proof (filterWith_inv (fun t => In inter (interceptors t))
                  (blastFrame (explosion_advance a)) Hb (rockets t) t Ht) as H'.
    destruct (filterWith (blastFrame (explosion_advance a)) (rockets t) t); exact H'. }
  pose proof (filterWith_inv (fun t => In inter (interceptors t)) explosionFrame Hcb
                (explosions s3) s3 H2) as H3.
  destruct (filterWith explosionFrame (explosions s3) s3); exact H3.
Qed.

Lemma adrift_step :
  forall s s' inter, step s s' -> adrift inter -> In inter (interceptors s) ->
    In inter (interceptors s').
Proof.
  intros s s' inter [f|x y] Ha Hin.
  - destruct (GameState_eqb (gameState s) PLAYING) eqn:E.
    + assert (Hp : gameState s = PLAYING) by (destruct (gameState s); simpl in E; congruence).
      destruct (update_cells f s Hp) as (_&_&_&_&_&_&_&_&Hi). rewrite Hi.
      unfold beforeRoundCheck.
      destruct (winLoss_cells (refill800 (refill500 (simulate f s)))) as (_&_&_&_&_&_&_&W).
      destruct (refill800_cells (refill500 (simulate f s))) as (_&_&_&_&_&_&_&_&_&E8&_).
      destruct (refill500_cells (simulate f s)) as (_&_&_&_&_&_&_&_&_&E5&_).
      rewrite W, E8, E5. apply interceptors_simulate; auto.
    + rewrite update_idle; auto. intros Hp; rewrite Hp in E; discriminate.
  - unfold handleCanvasClick. destruct (negb _); auto. destruct (negb _); auto.
    destruct (nth_error _ _); auto. simpl. apply in_or_app; left; auto.
Qed.

Lemma roundOver_interceptor :
  forall s inter, In inter (interceptors s) -> roundOver s = false.
Proof.
  intros s inter H. destruct (roundOver s) eqn:E; auto.
  apply roundOver_iff in E. destruct E as (_ & E & _). rewrite E in H. inversion H.
Qed.

(** C1 does not hold of the code.  A rocket whose start is its end, and an
    interceptor whose start is its target, get a NaN position in the
    first frame, fail the arrival test and are kept; the interceptor then
    stays in the store through every later frame and click, and with it
    there the round check of line 447 fails on every frame. *)
Theorem degenerate_never_arrives :
  (forall (rocket : Rocket float) s, r_start rocket = r_end rocket ->
     rocketFrame rocket s = (Some (rocket_advance rocket), s)
     /\ r_current (rocket_advance rocket) = mkPoint PrimFloat.nan PrimFloat.nan)
  /\ (forall inter s, i_start inter = i_target inter ->
        interceptorFrame inter s = (Some (interceptor_advance inter), s)
        /\ adrift (interceptor_advance inter))
  /\ (forall inter s s', adrift inter -> In inter (interceptors s) -> steps s s' ->
        In inter (interceptors s')
        /\ forall f, roundOver (beforeRoundCheck f s') = false).
Proof.
  split; [|split].
  - intros rocket s H. destruct (rocket_degenerate rocket H) as [H1 H2].
    unfold rocketFrame. rewrite H2. auto.
  - intros inter s H. destruct (interceptor_degenerate inter H) as [H1 H2].
    unfold interceptorFrame. rewrite H2. auto.
  - intros inter s s' Ha Hin Hs.
    assert (Hin' : In inter (interceptors s')).
    { induction Hs as [|s1 s2 _ IH Hst]; auto. eapply adrift_step; eauto. }
    split; auto. intros f.
    apply roundOver_interceptor with (inter := inter).
    unfold beforeRoundCheck.
    destruct (winLoss_cells (refill800 (refill500 (simulate f s')))) as (_&_&_&_&_&_&_&W).
    destruct (refill800_cells (refill500 (simulate f s'))) as (_&_&_&_&_&_&_&_&_&E8&_).
    destruct (refill500_cells (simulate f s')) as (_&_&_&_&_&_&_&_&_&E5&_).
    rewrite W, E8, E5. apply interceptors_simulate; auto.
Qed.

(** The click on the left turret of a fresh match: one frame later its
    interceptor is adrift at a NaN position. *)
Lemma click_on_turret_adrift :
  exists inter,
    interceptors (update quietFrame clickedOnTurret) = [inter]
    /\ i_start inter = mkPoint 60%float 560%float
    /\ i_target inter = mkPoint 60%float 560%float
    /\ i_current inter = mkPoint PrimFloat.nan PrimFloat.nan
    /\ t_ammo (nth 0 (turrets clickedOnTurret) (mkTurret 0 0 0 0 false)) = 19%Z.
Proof. eexists; vm_compute; repeat split. Qed.

(* ------------------------------------------------------------------ *)
(** ** A rocket whose end point is not below its start *)

(** The arrival test of line 334 looks at [y] only.  On the canvas of
    [lowCanvas], 39 px high, the ground line is above the top edge: the
    rocket of the first frame has distinct start and end points and a
    positive speed, is in flight after both frames, and is farther from
    its end point after the second frame than after the first (binary64,
    the distance computed as the engine computes distances). *)
Lemma rocket_recedes :
  exists r1 r2,
    rockets (update firstFrame lowCanvas) = [r1]
    /\ rockets (update secondFrame (update firstFrame lowCanvas)) = [r2]
    /\ r_start r1 = mkPoint 60%float 0%float
    /\ r_end r1 = mkPoint 60%float (-1)%float
    /\ (0 <? r_speed r1)%float = true
    /\ r2 = rocket_advance r1
    /\ rocket_arrived r1 = false /\ rocket_arrived r2 = false
    /\ (distance (r_current r1) (r_end r1)
        <? distance (r_current r2) (r_end r2))%float = true.
Proof. do 2 eexists; vm_compute; repeat split. Qed.

(* ------------------------------------------------------------------ *)
(** ** The scenarios of section 8 of the specification, executed *)

(** Scenario A: the rocket is in flight for 440 frames; the next frame
    removes it and leaves an explosion of [maxRadius] 55, one frame old. *)
Example scenarioA_runs :
  length (rockets (Nat.iter 440 (update quietFrame) scenarioA)) = 1%nat
  /\ rockets (Nat.iter 441 (update quietFrame) scenarioA) = []
  /\ map e_maxRadius (explosions (Nat.iter 441 (update quietFrame) scenarioA))
     = [55%float]
  /\ map t_active (turrets (Nat.iter 441 (update quietFrame) scenarioA))
     = [true; false; true].
Proof. vm_compute. repeat split. Qed.

(** Scenario B: the click at (150, 200) takes one round from the turret
    and launches one interceptor from (300, 560) to (150, 200). *)
Example scenarioB_runs :
  map t_ammo (turrets (handleCanvasClick 150 200 scenarioB)) = [4%Z]
  /\ interceptors (handleCanvasClick 150 200 scenarioB)
     = [ mkInterceptor (mkPoint 300 560) (mkPoint 150 200) (mkPoint 300 560)
           INTERCEPTOR_SPEED 0 ]%float.
Proof. vm_compute. repeat split. Qed.

(** Scenarios C and D: the frame destroys the rocket and queues 20
    points; the next frame finds 1000 points and ends the match. *)
Example scenarioD_runs :
  rockets (update quietFrame scenarioD) = []
  /\ score (update quietFrame scenarioD) = 1000%Z
  /\ gameState (update quietFrame scenarioD) = PLAYING
  /\ gameState (update quietFrame (update quietFrame scenarioD)) = WON.
Proof. vm_compute. repeat split. Qed.

(* ------------------------------------------------------------------ *)
(** ** The theorems at work on concrete matches *)

Lemma steps_frames :
  forall f n s s1, steps s s1 -> steps s (Nat.iter n (update f) s1).
Proof.
  intros f n s s1 H; induction n as [|n IH]; simpl; auto.
  eapply steps_next; [exact IH | apply step_frame].
Qed.


(** The explosion of an interceptor, two frames old. *)
Lemma explosion_radius_bounds_witness :
  exists e, In e (explosions volley)
            /\ (0 <? e_radius e)%float = true
            /\ (e_radius e <? e_maxRadius e + EXPLOSION_SPEED)%float = true.
Proof.
  set (e := hd (newExplosion (mkPoint 0 0) 0)%float (explosions volley)).
  assert (Hin : In e (explosions volley)) by (vm_compute; left; reflexivity).
  assert (Hs : steps (startGame CLASSIC (Some (800, 600)%float) (initialGame 800 600 None))
                 volley).
  { unfold volley. apply steps_frames.
    eapply steps_next; [apply steps_refl | apply step_click]. }
  destruct (@explosion_radius_bounds _ _ _ _ e Hs Hin) as (A & B & _).
  exists e. split; [exact Hin | split; [exact A | exact B]].
Defined.

(** Scenario F: the score reaches 1600 after a refill at 800. *)
Lemma refill800_once_witness :
  lastRefillScore (update quietFrame milestone1600) = 1600%Z
  /\ armed (turrets (update quietFrame milestone1600)).
Proof.
  destruct (refill800_once quietFrame milestone1600 eq_refl) as (H1 & H2 & _).
  destruct H2 as (A & B & _).
  - apply (proj2 H1). repeat split; [exists 2%Z; reflexivity | discriminate].
  - split; assumption.
Defined.

(** The round ends in [spent]: the two active turrets are refilled to
    20, the wrecked one stays empty. *)
Lemma round_advance_iff_witness :
  round (update quietFrame spent) = (round spent + 1)%Z
  /\ Forall2 refilled (turrets (beforeRoundCheck quietFrame spent))
       (turrets (update quietFrame spent)).
Proof.
  destruct (round_advance_iff quietFrame spent eq_refl) as (H & _ & _ & _ & Hr).
  assert (E : round (update quietFrame spent) = (round spent + 1)%Z)
    by (apply (proj2 H); vm_compute; repeat constructor).
  split; [exact E | exact (Hr E)].
Defined.

Lemma refill500_once_witness :
  hasRefilledAt500 (update quietFrame reached500) = true
  /\ Forall2 refilled (turrets (simulate quietFrame reached500))
       (turrets (update quietFrame reached500)).
Proof.
  destruct (refill500_once quietFrame reached500 eq_refl) as (H & _).
  destruct (H eq_refl (Z.le_refl 500)) as (_ & A & _ & B). split; assumption.
Defined.

Lemma spawnRocket_spec_witness :
  exists r, rockets (spawnRocket 800%float 0.5%float 0 freshGame) = rockets freshGame ++ [r]
            /\ r_current r = r_start r.
Proof.
  destruct (proj2 (spawnRocket_spec 800%float 0.5%float 0 freshGame)) as (r & A & _ & B & _).
  - left. exists (mkCity 144 560 true)%float. split; [left; reflexivity | reflexivity].
  - exists r; auto.
Defined.

Lemma stranded_turret_blocks_rounds_witness :
  round (update quietFrame lastStand) = round lastStand.
Proof.
  assert (H : stuck lastStand) by (unfold stuck; simpl; left; split; reflexivity).
  exact (proj1 (proj2 (stranded_turret_blocks_rounds H
                         (steps_next (steps_refl lastStand)
                            (step_frame lastStand quietFrame))))).
Defined.

Lemma impact_frame_witness :
  Forall2 (turretAfterImpact 400%float)
    (turrets lastStand)
    (turrets (snd (rocketFrame
                     (mkRocket (mkPoint 400 0) (mkPoint 400 560) (mkPoint 400 559.5) 1.65)%float
                     lastStand))).
Proof.
  apply (proj1 (proj1 (impact_frame
                         (mkRocket (mkPoint 400 0) (mkPoint 400 560) (mkPoint 400 559.5) 1.65)%float
                         lastStand) eq_refl)).
Defined.

(** The click on the left turret of a fresh match: its interceptor is
    adrift from the first frame on. *)
Lemma degenerate_never_arrives_witness :
  exists inter,
    interceptors (update quietFrame clickedOnTurret) = [inter]
    /\ adrift inter
    /\ In inter (interceptors (update quietFrame (update quietFrame clickedOnTurret))).
Proof.
  set (inter := mkInterceptor (mkPoint 60 560)%float (mkPoint 60 560)%float
                  (mkPoint PrimFloat.nan PrimFloat.nan) INTERCEPTOR_SPEED 0).
  assert (Ha : adrift inter) by (split; reflexivity).
  assert (Hin : In inter (interceptors (update quietFrame clickedOnTurret)))
    by (vm_compute; left; reflexivity).
  exists inter. split; [vm_compute; reflexivity | split; [exact Ha|]].
  apply (proj1 (proj2 (proj2 degenerate_never_arrives) inter _ _ Ha Hin
                 (steps_next (steps_refl _) (step_frame _ quietFrame)))).
Defined.

(* ================================================================== *)
(** * Further properties of the engine *)

(** ** The match state machine *)

Lemma playing_dec :
  forall s, gameState s = PLAYING \/ gameState s <> PLAYING.
Proof. intros s; destruct (gameState s); auto; right; discriminate. Qed.

Lemma click_idle :
  forall x y s, gameState s <> PLAYING -> handleCanvasClick x y s = s.
Proof.
  intros x y s H; unfold handleCanvasClick.
  destruct (gameState s); simpl; congruence.
Qed.

(** X1.  Outside PLAYING nothing moves: from a state that is not PLAYING
    (START, WON, LOST), every sequence of frames and clicks leaves the
    whole state as it is (the guards of lines 273 and 315). *)
Theorem halted_match_is_frozen :
  forall s s', gameState s <> PLAYING -> steps s s' -> s' = s.
Proof.
  intros s s' H Hs; induction Hs as [|s1 s2 _ IH Hst]; auto.
  subst s1. destruct Hst as [f|x y]; [apply update_idle | apply click_idle]; auto.
Qed.

Lemma allDown_update :
  forall f s, gameState s = PLAYING ->
    allTurretsDown (update f s) = allTurretsDown (refill800 (refill500 (simulate f s))).
Proof.
  intros f s Hp. rewrite (update_playing f s Hp). unfold beforeRoundCheck.
  apply allDown_progression.
Qed.

Lemma winLoss_state :
  forall s, gameState s = PLAYING ->
    gameState (winLoss s)
    = if GameMode_eqb (gameMode s) CLASSIC && (WIN_SCORE <=? score s)%Z then WON
      else if allTurretsDown s then LOST else PLAYING.
Proof.
  intros s Hp; unfold winLoss.
  destruct (_ && _); [reflexivity|].
  destruct (allTurretsDown s); [|exact Hp].
  destruct (highScore s <? score s)%Z; reflexivity.
Qed.

Lemma update_state :
  forall f s, gameState s = PLAYING ->
    gameState (update f s)
    = if GameMode_eqb (gameMode s) CLASSIC && (WIN_SCORE <=? score s)%Z then WON
      else if allTurretsDown (update f s) then LOST else PLAYING.
Proof.
  intros f s Hp. destruct (update_cells f s Hp) as (_&_&_&_&Hg&_).
  rewrite Hg, (allDown_update f s Hp). unfold beforeRoundCheck.
  set (m := refill800 (refill500 (simulate f s))).
  assert (Hm : gameState m = PLAYING /\ gameMode m = gameMode s /\ score m = score s).
  { unfold m.
    destruct (refill800_cells (refill500 (simulate f s))) as (A0&A1&A2&_).
    destruct (refill500_cells (simulate f s)) as (B0&B1&B2&_).
    destruct (control_fields (control_simulate f s)) as (C0&C1&C2&_).
    repeat split; congruence. }
  destruct Hm as (M0 & M1 & M2). rewrite (winLoss_state m M0), M1, M2. reflexivity.
Qed.

(** X2.  The outcome of a frame of a running match (lines 437-445): the
    state becomes WON exactly when the mode is classic and the rendered
    score has reached [WIN_SCORE]; otherwise LOST exactly when every
    turret is inactive once the frame's impacts are resolved; otherwise
    it stays PLAYING. *)
Theorem frame_outcome :
  forall f s, gameState s = PLAYING ->
    (gameState (update f s) = WON <->
       gameMode s = CLASSIC /\ (WIN_SCORE <= score s)%Z)
    /\ (gameState (update f s) = LOST <->
          ~ (gameMode s = CLASSIC /\ (WIN_SCORE <= score s)%Z)
          /\ allTurretsDown (update f s) = true)
    /\ (gameState (update f s) = PLAYING <->
          ~ (gameMode s = CLASSIC /\ (WIN_SCORE <= score s)%Z)
          /\ allTurretsDown (update f s) = false).
Proof.
  intros f s Hp. rewrite (update_state f s Hp).
  assert (W : GameMode_eqb (gameMode s) CLASSIC && (WIN_SCORE <=? score s)%Z = true
              <-> gameMode s = CLASSIC /\ (WIN_SCORE <= score s)%Z).
  { rewrite andb_true_iff, Z.leb_le. destruct (gameMode s); simpl; intuition discriminate. }
  destruct (GameMode_eqb (gameMode s) CLASSIC && (WIN_SCORE <=? score s)%Z).
  - assert (Hw : gameMode s = CLASSIC /\ (WIN_SCORE <= score s)%Z) by (apply W; auto).
    repeat split; auto; try discriminate; try tauto.
  - assert (Hn : ~ (gameMode s = CLASSIC /\ (WIN_SCORE <= score s)%Z)).
    { intros Hw; apply W in Hw; discriminate. }
    destruct (allTurretsDown (update f s)); repeat split; auto; try discriminate;
      try tauto; intros [_ ?]; discriminate.
Qed.

(** X3.  A match started by [startGame] is only ever PLAYING, WON or
    LOST: no frame and no click leads back to START or into
    ROUND_OVER. *)
Theorem match_states_reachable :
  forall mode container s0 s,
    steps (startGame mode container s0) s ->
    gameState s = PLAYING \/ gameState s = WON \/ gameState s = LOST.
Proof.
  intros mode container s0 s Hs; induction Hs as [|s1 s2 _ IH Hst].
  - left. unfold startGame. destruct container as [[w h]|]; reflexivity.
  - destruct Hst as [f|x y].
    + destruct (playing_dec s1) as [Hp|Hn].
      * rewrite (update_state f s1 Hp).
        destruct (_ && _); auto. destruct (allTurretsDown _); auto.
      * rewrite (update_idle f s1 Hn); exact IH.
    + destruct (control_fields (control_click x y s1)) as (Hg&_). rewrite Hg; exact IH.
Qed.

(** ** Invariants of the phases of a frame *)

Lemma rocketsPhase_inv :
  forall (I : Game -> Prop),
    (forall a t, I t -> I (snd (rocketFrame a t))) ->
    (forall rs t, I t -> I (set_rockets rs t)) ->
    forall s, I s -> I (rocketsPhase s).
Proof.
  intros I Hcb Hset s Hs; unfold rocketsPhase.
  pose proof (filterWith_inv I rocketFrame Hcb (rockets s) s Hs) as H.
  destruct (filterWith rocketFrame (rockets s) s); apply Hset; exact H.
Qed.

Lemma interceptorsPhase_inv :
  forall (I : Game -> Prop),
    (forall a t, I t -> I (snd (interceptorFrame a t))) ->
    (forall l t, I t -> I (set_interceptors l t)) ->
    forall s, I s -> I (interceptorsPhase s).
Proof.
  intros I Hcb Hset s Hs; unfold interceptorsPhase.
  pose proof (filterWith_inv I interceptorFrame Hcb (interceptors s) s Hs) as H.
  destruct (filterWith interceptorFrame (interceptors s) s); apply Hset; exact H.
Qed.

Lemma explosionsPhase_inv :
  forall (I : Game -> Prop),
    (forall e t, I t -> I (snd (explosionFrame e t))) ->
    (forall l t, I t -> I (set_explosions l t)) ->
    forall s, I s -> I (explosionsPhase s).
Proof.
  intros I Hcb Hset s Hs; unfold explosionsPhase.
  pose proof (filterWith_inv I explosionFrame Hcb (explosions s) s Hs) as H.
  destruct (filterWith explosionFrame (explosions s) s); apply Hset; exact H.
Qed.

Lemma explosionFrame_inv :
  forall (I : Game -> Prop),
    (forall e r t, I t -> I (snd (blastFrame e r t))) ->
    (forall rs t, I t -> I (set_rockets rs t)) ->
    forall e t, I t -> I (snd (explosionFrame e t)).
Proof.
  intros I Hcb Hset e t Ht; unfold explosionFrame.
  pose proof (filterWith_inv I (blastFrame (explosion_advance e))
                (Hcb (explosion_advance e)) (rockets t) t Ht) as H.
  destruct (filterWith (blastFrame (explosion_advance e)) (rockets t) t).
  simpl. apply Hset; exact H.
Qed.

Lemma filterWith_length :
  forall (A S : Type) (cb : A -> S -> option A * S) l s,
    (length (fst (filterWith cb l s)) <= length l)%nat.
Proof.
  intros A S cb; induction l as [|a l IH]; intros s; simpl; auto.
  destruct (cb a s) as [keep s1]. specialize (IH s1).
  destruct (filterWith cb l s1) as [rest s2]; simpl in *.
  destruct keep; simpl; lia.
Qed.

(** ** Scoring *)

(** The inner filter of line 377: 20 points are queued for each rocket
    it removes, and for nothing else. *)
Lemma blast_accounting :
  forall e l t,
    scoreQueue (snd (filterWith (blastFrame e) l t))
    = (scoreQueue t
       + ROCKET_SCORE * (Z.of_nat (length l)
                         - Z.of_nat (length (fst (filterWith (blastFrame e) l t)))))%Z.
Proof.
  intros e; unfold ROCKET_SCORE; induction l as [|r l IH]; intros t.
  - cbn [filterWith fst snd length]. lia.
  - cbn [filterWith]. unfold blastFrame at 1 3. destruct (inBlast e r).
    + match goal with |- context [filterWith (blastFrame e) l ?u] =>
        specialize (IH u); destruct (filterWith (blastFrame e) l u) as [rest s2] end.
      cbn [fst snd length scoreQueue set_scoreQueue pushExplosion set_explosions] in *.
      rewrite IH, Nat2Z.inj_succ. unfold ROCKET_SCORE. lia.
    + specialize (IH t). destruct (filterWith (blastFrame e) l t) as [rest s2].
      cbn [fst snd length] in *. rewrite IH, !Nat2Z.inj_succ. lia.
Qed.

Lemma bounty_explosionFrame :
  forall e t, bounty (snd (explosionFrame e t)) = bounty t
              /\ (length (rockets (snd (explosionFrame e t))) <= length (rockets t))%nat.
Proof.
  intros e t; unfold explosionFrame, bounty.
  pose proof (blast_accounting (explosion_advance e) (rockets t) t) as H.
  pose proof (filterWith_length (blastFrame (explosion_advance e)) (rockets t) t) as Hl.
  destruct (filterWith (blastFrame (explosion_advance e)) (rockets t) t) as [rs t'].
  cbn [fst snd rockets scoreQueue set_rockets] in *. unfold ROCKET_SCORE in *.
  split; [lia | exact Hl].
Qed.

Lemma bounty_explosionsPhase :
  forall s, bounty (explosionsPhase s) = bounty s
            /\ (length (rockets (explosionsPhase s)) <= length (rockets s))%nat.
Proof.
  intros s.
  apply (explosionsPhase_inv
           (fun t => bounty t = bounty s
                     /\ (length (rockets t) <= length (rockets s))%nat)).
  - intros e t [H1 H2]. destruct (bounty_explosionFrame e t) as [E1 E2].
    split; [congruence | lia].
  - intros l t H; exact H.
  - split; auto.
Qed.

Lemma scoreQueue_afterKinematics :
  forall f s, scoreQueue (afterKinematics f s) = scoreQueue s.
Proof.
  intros f s; unfold afterKinematics.
  apply (interceptorsPhase_inv (fun t => scoreQueue t = scoreQueue s)).
  - intros a t Ht; unfold interceptorFrame.
    destruct (interceptor_arrived (interceptor_advance a)); simpl; auto.
  - intros l t Ht; exact Ht.
  - apply (rocketsPhase_inv (fun t => scoreQueue t = scoreQueue s)).
    + intros a t Ht; unfold rocketFrame.
      destruct (rocket_arrived (rocket_advance a)); simpl; auto.
    + intros l t Ht; exact Ht.
    + unfold spawnPhase. destruct (nextRocketTime s <? f_time f)%float; auto.
      unfold spawnRocket. destruct (length (spawnTargets s) =? 0)%nat; auto.
      destruct (nth_error _ _); auto.
Qed.

Lemma update_score :
  forall f s, gameState s = PLAYING ->
    score (update f s) = (score s + scoreQueue (simulate f s))%Z
    /\ scoreQueue (update f s) = 0%Z
    /\ rockets (update f s) = rockets (simulate f s).
Proof.
  intros f s Hp. rewrite (update_playing f s Hp).
  destruct (commit_score (roundAdvance (beforeRoundCheck f s))) as [Kq Ks].
  destruct (commit_cells (roundAdvance (beforeRoundCheck f s)))
    as (_&_&_&_&_&_&_&Kro&_).
  rewrite Kq, Ks, Kro. unfold beforeRoundCheck.
  destruct (roundAdvance_cells (winLoss (refill800 (refill500 (simulate f s)))))
    as (_&_&R1&R2&_&_&_&_&R3&_).
  destruct (winLoss_cells (refill800 (refill500 (simulate f s)))) as (_&W1&W2&_&_&_&W3&_).
  destruct (refill800_cells (refill500 (simulate f s))) as (_&_&E1&E2&_&_&_&_&E3&_).
  destruct (refill500_cells (simulate f s)) as (_&_&F1&F2&_&_&_&_&F3&_).
  destruct (control_fields (control_simulate f s)) as (_&_&C1&_).
  rewrite R1, R2, R3, W1, W2, W3, E1, E2, E3, F1, F2, F3, C1. auto.
Qed.

Lemma update_pays_kills :
  forall f s, gameState s = PLAYING ->
    (length (rockets (update f s)) <= length (rockets (afterKinematics f s)))%nat
    /\ score (update f s)
       = (score s + scoreQueue s
          + ROCKET_SCORE * (Z.of_nat (length (rockets (afterKinematics f s)))
                            - Z.of_nat (length (rockets (update f s)))))%Z.
Proof.
  intros f s Hp. destruct (update_score f s Hp) as (Hs & _ & Hr). rewrite Hs, Hr.
  assert (E : simulate f s = warningsPhase (explosionsPhase (afterKinematics f s)))
    by reflexivity.
  rewrite E. unfold warningsPhase; cbn [rockets scoreQueue set_warnings].
  destruct (bounty_explosionsPhase (afterKinematics f s)) as [Hb Hl].
  unfold bounty in Hb. rewrite (scoreQueue_afterKinematics f s) in Hb.
  unfold ROCKET_SCORE in *. split; [exact Hl | lia].
Qed.

(** X4.  Score accounting of a frame (lines 377-390 and the commit of
    [setScore]): the explosion filter only ever removes rockets, and the
    score rendered after the frame is the score before it, plus what was
    still queued, plus [ROCKET_SCORE] = 20 for each rocket the explosions
    removed.  A rocket removed by its ground impact pays nothing. *)
Theorem kills_pay_twenty :
  forall f s, gameState s = PLAYING ->
    (length (rockets (update f s)) <= length (rockets (afterKinematics f s)))%nat
    /\ score (update f s)
       = (score s + scoreQueue s
          + ROCKET_SCORE * (Z.of_nat (length (rockets (afterKinematics f s)))
                            - Z.of_nat (length (rockets (update f s)))))%Z.
Proof. exact update_pays_kills. Qed.

Lemma score_steps_quantized :
  forall s s', scoreQueue s = 0%Z -> steps s s' ->
    scoreQueue s' = 0%Z
    /\ exists k : nat, score s' = (score s + ROCKET_SCORE * Z.of_nat k)%Z.
Proof.
  intros s s' Hq Hs; induction Hs as [|s1 s2 _ IH Hst].
  - split; auto. exists 0%nat; unfold ROCKET_SCORE; lia.
  - destruct IH as (I1 & k & I2). destruct Hst as [f|x y].
    + destruct (playing_dec s1) as [Hp|Hn].
      * destruct (update_score f s1 Hp) as (_ & Hq2 & _).
        destruct (update_pays_kills f s1 Hp) as [Hl Hsc].
        split; auto.
        exists (k + (length (rockets (afterKinematics f s1))
                     - length (rockets (update f s1))))%nat.
        rewrite Hsc, I1, I2. unfold ROCKET_SCORE. lia.
      * rewrite (update_idle f s1 Hn). split; auto. exists k; auto.
    + destruct (control_fields (control_click x y s1)) as (_&_&Hsc&_).
      split; [|exists k; congruence].
      unfold handleCanvasClick.
      destruct (negb (GameState_eqb (gameState s1) PLAYING)); auto.
      destruct (negb _); auto. destruct (nth_error _ _); auto.
Qed.

(** X5.  Score quantization: between frames the queue is empty, and
    along every sequence of frames and clicks the score grows by a
    natural multiple of [ROCKET_SCORE]; it never decreases. *)
Theorem score_quantized :
  forall s s', scoreQueue s = 0%Z -> steps s s' ->
    scoreQueue s' = 0%Z
    /\ exists k : nat, score s' = (score s + ROCKET_SCORE * Z.of_nat k)%Z.
Proof. exact score_steps_quantized. Qed.

(** ** The explosion store *)

Lemma explosionFrame_keeps :
  forall e s,
    fst (explosionFrame e s)
    = if explosion_alive (explosion_advance e) then Some (explosion_advance e) else None.
Proof.
  intros e s; unfold explosionFrame.
  destruct (filterWith (blastFrame (explosion_advance e)) (rockets s) s); reflexivity.
Qed.

Lemma explosion_filter_result :
  forall l s,
    fst (filterWith explosionFrame l s)
    = filter explosion_alive (map explosion_advance l).
Proof.
  induction l as [|e l IH]; intros s; [reflexivity|].
  cbn [filterWith map filter].
  pose proof (explosionFrame_keeps e s) as Hk.
  destruct (explosionFrame e s) as [keep s1]. specialize (IH s1).
  destruct (filterWith explosionFrame l s1) as [rest s2].
  cbn [fst] in *. subst keep rest.
  destruct (explosion_alive (explosion_advance e)); reflexivity.
Qed.

Lemma explosions_update :
  forall f s, gameState s = PLAYING ->
    explosions (update f s) = explosions (explosionsPhase (afterKinematics f s)).
Proof.
  intros f s Hp. rewrite (update_playing f s Hp). unfold beforeRoundCheck.
  rewrite explosions_progression. reflexivity.
Qed.

(** X6.  The explosions after a frame are the explosions the explosion
    filter started from (lines 368-392), each advanced by one frame, the
    dead ones removed, in the same order, and nothing else: what the kill
    of line 384 pushes on the array being filtered is not in the array
    that replaces it, so destroying a rocket adds no explosion to the
    store. *)
Theorem explosions_after_frame :
  forall f s, gameState s = PLAYING ->
    explosions (update f s)
    = filter explosion_alive
        (map explosion_advance (explosions (afterKinematics f s))).
Proof.
  intros f s Hp. rewrite (explosions_update f s Hp). unfold explosionsPhase.
  pose proof (explosion_filter_result (explosions (afterKinematics f s))
                (afterKinematics f s)) as H.
  destruct (filterWith explosionFrame (explosions (afterKinematics f s))
              (afterKinematics f s)) as [es s'].
  exact H.
Qed.

(** What the rocket filter and the interceptor filter add to the
    explosion store: one new explosion for each element they drop. *)
Lemma rocket_filter_explosions :
  forall l t,
    exists news,
      explosions (snd (filterWith rocketFrame l t)) = explosions t ++ news
      /\ (length news + length (fst (filterWith rocketFrame l t)) = length l)%nat
      /\ Forall (fun e => exists pos, e = newExplosion pos 55) news.
Proof.
  induction l as [|r l IH]; intros t.
  - exists []. cbn [filterWith fst snd length]. rewrite app_nil_r. auto.
  - cbn [filterWith]. unfold rocketFrame at 1 3.
    destruct (rocket_arrived (rocket_advance r)).
    + match goal with |- context [filterWith rocketFrame l ?u] =>
        destruct (IH u) as (news & E & Hl & Hn);
        destruct (filterWith rocketFrame l u) as [rest s2] end.
      cbn [fst snd] in *.
      exists (newExplosion (r_current (rocket_advance r)) 55 :: news).
      rewrite E. cbn [explosions groundImpact set_turrets set_cities pushExplosion
                        set_explosions triggerShake set_shakeSet length].
      rewrite <- app_assoc. repeat split; [lia|]. constructor; eauto.
    + destruct (IH t) as (news & E & Hl & Hn).
      destruct (filterWith rocketFrame l t) as [rest s2]. cbn [fst snd length] in *.
      exists news. repeat split; auto; lia.
Qed.

Lemma interceptor_filter_explosions :
  forall l t,
    exists news,
      explosions (snd (filterWith interceptorFrame l t)) = explosions t ++ news
      /\ (length news + length (fst (filterWith interceptorFrame l t)) = length l)%nat
      /\ Forall (fun e => exists pos, e = newExplosion pos EXPLOSION_MAX_RADIUS) news.
Proof.
  induction l as [|r l IH]; intros t.
  - exists []. cbn [filterWith fst snd length]. rewrite app_nil_r. auto.
  - cbn [filterWith]. unfold interceptorFrame at 1 3.
    destruct (interceptor_arrived (interceptor_advance r)).
    + match goal with |- context [filterWith interceptorFrame l ?u] =>
        destruct (IH u) as (news & E & Hl & Hn);
        destruct (filterWith interceptorFrame l u) as [rest s2] end.
      cbn [fst snd] in *.
      exists (newExplosion (i_target (interceptor_advance r)) EXPLOSION_MAX_RADIUS :: news).
      rewrite E. cbn [explosions pushExplosion set_explosions length].
      rewrite <- app_assoc. repeat split; [lia|]. constructor; eauto.
    + destruct (IH t) as (news & E & Hl & Hn).
      destruct (filterWith interceptorFrame l t) as [rest s2]. cbn [fst snd length] in *.
      exists news. repeat split; auto; lia.
Qed.

Lemma spawnPhase_fields :
  forall f s,
    explosions (spawnPhase f s) = explosions s
    /\ interceptors (spawnPhase f s) = interceptors s
    /\ turrets (spawnPhase f s) = turrets s
    /\ cities (spawnPhase f s) = cities s
    /\ (rockets (spawnPhase f s) = rockets s
        \/ ((nextRocketTime s <? f_time f)%float = true
            /\ exists r, rockets (spawnPhase f s) = rockets s ++ [r])).
Proof.
  intros f s; unfold spawnPhase.
  destruct (nextRocketTime s <? f_time f)%float; [|repeat split; auto].
  unfold spawnRocket. destruct (length (spawnTargets s) =? 0)%nat; [repeat split; auto|].
  destruct (nth_error _ _); repeat split; auto.
  right; split; auto. eexists; reflexivity.
Qed.

Lemma rocketsPhase_fields :
  forall s, interceptors (rocketsPhase s) = interceptors s.
Proof.
  intros s. apply (rocketsPhase_inv (fun t => interceptors t = interceptors s)); auto.
  intros a t Ht; unfold rocketFrame.
  destruct (rocket_arrived (rocket_advance a)); simpl; auto.
Qed.

Lemma interceptorsPhase_fields :
  forall s, rockets (interceptorsPhase s) = rockets s
            /\ turrets (interceptorsPhase s) = turrets s
            /\ cities (interceptorsPhase s) = cities s.
Proof.
  intros s.
  apply (interceptorsPhase_inv
           (fun t => rockets t = rockets s /\ turrets t = turrets s
                     /\ cities t = cities s)); auto.
  intros a t Ht; unfold interceptorFrame.
  destruct (interceptor_arrived (interceptor_advance a)); simpl; auto.
Qed.

Lemma afterKinematics_explosions :
  forall f s,
    exists impacts detonations,
      explosions (afterKinematics f s) = explosions s ++ impacts ++ detonations
      /\ (length impacts + length (rockets (afterKinematics f s))
          = length (rockets (spawnPhase f s)))%nat
      /\ (length detonations + length (interceptors (afterKinematics f s))
          = length (interceptors s))%nat
      /\ Forall (fun e => exists pos, e = newExplosion pos 55) impacts
      /\ Forall (fun e => exists pos, e = newExplosion pos EXPLOSION_MAX_RADIUS)
           detonations.
Proof.
  intros f s. unfold afterKinematics.
  destruct (spawnPhase_fields f s) as (E0 & I0 & _).
  set (s1 := spawnPhase f s) in *.
  destruct (rocket_filter_explosions (rockets s1) s1) as (impacts & E1 & L1 & N1).
  assert (R2 : rockets (rocketsPhase s1) = fst (filterWith rocketFrame (rockets s1) s1)
               /\ explosions (rocketsPhase s1)
                  = explosions (snd (filterWith rocketFrame (rockets s1) s1))).
  { unfold rocketsPhase. destruct (filterWith rocketFrame (rockets s1) s1); auto. }
  destruct R2 as [R2 X2]. pose proof (rocketsPhase_fields s1) as I2.
  set (s2 := rocketsPhase s1) in *.
  destruct (interceptor_filter_explosions (interceptors s2) s2)
    as (detonations & E3 & L3 & N3).
  assert (R3 : interceptors (interceptorsPhase s2)
               = fst (filterWith interceptorFrame (interceptors s2) s2)
               /\ explosions (interceptorsPhase s2)
                  = explosions (snd (filterWith interceptorFrame (interceptors s2) s2))).
  { unfold interceptorsPhase. destruct (filterWith interceptorFrame (interceptors s2) s2); auto. }
  destruct R3 as [R3 X3]. destruct (interceptorsPhase_fields s2) as (K3 & _).
  exists impacts, detonations.
  rewrite X3, E3, X2, E1, E0, <- app_assoc, K3, R2, R3.
  repeat split; auto. rewrite <- I0, <- I2. exact L3.
Qed.

(** X7.  Explosions are created by arrivals only (lines 334-337 and
    359-362): the explosion filter of a frame starts from the explosions
    of the last frame followed by one new explosion of [maxRadius] 55 for
    each rocket the rocket filter dropped and one of [maxRadius]
    [EXPLOSION_MAX_RADIUS] for each interceptor the interceptor filter
    dropped, all with radius 2, growing and opaque. *)
Theorem arrivals_explode :
  forall f s,
    exists impacts detonations,
      explosions (afterKinematics f s) = explosions s ++ impacts ++ detonations
      /\ (length impacts + length (rockets (afterKinematics f s))
          = length (rockets (spawnPhase f s)))%nat
      /\ (length detonations + length (interceptors (afterKinematics f s))
          = length (interceptors s))%nat
      /\ Forall (fun e => exists pos, e = newExplosion pos 55) impacts
      /\ Forall (fun e => exists pos, e = newExplosion pos EXPLOSION_MAX_RADIUS)
           detonations.
Proof. exact afterKinematics_explosions. Qed.

Lemma update_population :
  forall f s, gameState s = PLAYING ->
    (length (rockets (update f s)) <= S (length (rockets s)))%nat
    /\ ((nextRocketTime s <? f_time f)%float = false ->
          (length (rockets (update f s)) <= length (rockets s))%nat)
    /\ (length (interceptors (update f s)) <= length (interceptors s))%nat.
Proof.
  intros f s Hp.
  destruct (update_pays_kills f s Hp) as [Hk _].
  destruct (afterKinematics_explosions f s) as (im & de & _ & L1 & L2 & _).
  destruct (spawnPhase_fields f s) as (_ & _ & _ & _ & Hr).
  assert (Hi : interceptors (update f s) = interceptors (afterKinematics f s)).
  { destruct (update_cells f s Hp) as (_&_&_&_&_&_&_&_&Hi). rewrite Hi.
    unfold beforeRoundCheck.
    destruct (winLoss_cells (refill800 (refill500 (simulate f s)))) as (_&_&_&_&_&_&_&W).
    destruct (refill800_cells (refill500 (simulate f s))) as (_&_&_&_&_&_&_&_&_&E8&_).
    destruct (refill500_cells (simulate f s)) as (_&_&_&_&_&_&_&_&_&E5&_).
    rewrite W, E8, E5.
    assert (E : simulate f s = warningsPhase (explosionsPhase (afterKinematics f s)))
      by reflexivity.
    rewrite E. unfold warningsPhase; cbn [interceptors set_warnings].
    apply (explosionsPhase_inv
             (fun t => interceptors t = interceptors (afterKinematics f s))); auto.
    apply explosionFrame_inv; auto.
    intros e r t Ht; unfold blastFrame. destruct (inBlast e r); simpl; auto. }
  rewrite Hi. repeat split; try lia.
  - destruct Hr as [Hr|(_ & r & Hr)]; rewrite Hr in L1; [lia|].
    rewrite length_app in L1; simpl in L1; lia.
  - intros Hd. destruct Hr as [Hr|(Hdue & _)]; [rewrite Hr in L1; lia | congruence].
Qed.

(** X8.  A frame spawns at most one rocket, and none unless the
    timestamp is past [nextRocketTime] (lines 322-325); it never launches
    an interceptor: interceptors only come from clicks. *)
Theorem frame_population :
  forall f s, gameState s = PLAYING ->
    (length (rockets (update f s)) <= S (length (rockets s)))%nat
    /\ ((nextRocketTime s <? f_time f)%float = false ->
          (length (rockets (update f s)) <= length (rockets s))%nat)
    /\ (length (interceptors (update f s)) <= length (interceptors s))%nat.
Proof. exact update_population. Qed.

(** ** Targeting *)

(** [<] of binary64 is a strict order. *)
Lemma SFltb_trans :
  forall a b c, SFltb a b = true -> SFltb b c = true -> SFltb a c = true.
Proof.
  unfold SFltb, SFcompare.
  intros [sa|sa| |sa ma ea] [sb|sb| |sb mb eb] [sc|sc| |sc mc ec];
    try destruct sa; try destruct sb; try destruct sc; simpl; try discriminate; auto;
    repeat match goal with
    | |- context [Pos.compare_cont Eq ?a ?b] =>
        change (Pos.compare_cont Eq a b) with (Pos.compare a b)
    end;
    repeat match goal with
    | |- context [Z.compare ?a ?b] => destruct (Z.compare_spec a b); subst
    | |- context [Pos.compare ?a ?b] => destruct (Pos.compare_spec a b); subst
    end; simpl; try discriminate; auto; try lia.
Qed.

Lemma SFltb_irrefl : forall a, SFltb a a = false.
Proof.
  unfold SFltb, SFcompare. intros [sa|sa| |sa ma ea]; try destruct sa; simpl; auto;
  change (Pos.compare_cont Eq ma ma) with (Pos.compare ma ma);
  rewrite Z.compare_refl, Pos.compare_refl; reflexivity.
Qed.

Lemma ltb_trans :
  forall a b c : float,
    (a <? b)%float = true -> (b <? c)%float = true -> (a <? c)%float = true.
Proof. intros a b c. rewrite !FloatAxioms.ltb_spec. apply SFltb_trans. Qed.

Lemma ltb_irrefl : forall a : float, (a <? a)%float = false.
Proof. intros a. rewrite FloatAxioms.ltb_spec. apply SFltb_irrefl. Qed.


(** One step of the [forEach] of lines 290-298. *)
Lemma nearestTurret_cons :
  forall t ts index x y acc,
    nearestTurret (t :: ts) index x y acc
    = nearestTurret ts (index + 1)%Z x y
        (if eligible t
         then if (clickDistance x y t <? snd acc)%float
              then (index, clickDistance x y t) else acc
         else acc).
Proof. reflexivity. Qed.

(** The result is the accumulator it started from, or an eligible turret
    of the list with its distance. *)
Lemma nearestTurret_full :
  forall ts index x y acc,
    nearestTurret ts index x y acc = acc
    \/ ((index <= fst (nearestTurret ts index x y acc))%Z
        /\ exists t,
             nth_error ts (Z.to_nat (fst (nearestTurret ts index x y acc) - index))
             = Some t
             /\ eligible t = true
             /\ snd (nearestTurret ts index x y acc) = clickDistance x y t).
Proof.
  induction ts as [|t ts IH]; intros index x y acc; [left; reflexivity|].
  rewrite nearestTurret_cons.
  match goal with |- context [nearestTurret ts (index + 1)%Z x y ?a] =>
    set (acc' := a) end.
  destruct (IH (index + 1)%Z x y acc') as [E|(Hle & t' & Hn & He & Hd)].
  - rewrite E. subst acc'. destruct (eligible t) eqn:G; auto.
    destruct (clickDistance x y t <? snd acc)%float; auto.
    right. cbn [fst snd]. split; [lia|]. exists t. rewrite Z.sub_diag. auto.
  - right. split; [lia|]. exists t'.
    replace (Z.to_nat (fst (nearestTurret ts (index + 1)%Z x y acc') - index))
      with (S (Z.to_nat (fst (nearestTurret ts (index + 1)%Z x y acc') - (index + 1))))
      by lia.
    auto.
Qed.



Lemma click_no_turret :
  forall x y s,
    (gameState s <> PLAYING -> handleCanvasClick x y s = s)
    /\ ((forall t, In t (turrets s) -> eligible t = false) ->
        handleCanvasClick x y s = s)
    /\ control (handleCanvasClick x y s) = control s
    /\ rockets (handleCanvasClick x y s) = rockets s
    /\ explosions (handleCanvasClick x y s) = explosions s
    /\ cities (handleCanvasClick x y s) = cities s.
Proof.
  intros x y s. split; [apply click_idle|]. split.
  - intros Hno. unfold handleCanvasClick.
    destruct (negb (GameState_eqb (gameState s) PLAYING)); auto.
    set (acc0 := ((-1)%Z, PrimFloat.infinity)).
    destruct (nearestTurret_full (turrets s) 0 x y acc0) as [E|(_ & t & Hn & Het & _)].
    + rewrite E. reflexivity.
    + apply nth_error_In in Hn. rewrite (Hno t Hn) in Het. discriminate.
  - split; [apply control_click|].
    unfold handleCanvasClick.
    destruct (negb (GameState_eqb (gameState s) PLAYING)); auto.
    destruct (negb _); auto. destruct (nth_error _ _); auto.
Qed.

(** X10.  A click that launches nothing changes nothing: outside PLAYING,
    or when no turret is active with ammunition, [handleCanvasClick]
    returns the state as it is.  And whatever it does, it leaves the
    score, the round, the match state, the rockets, the explosions and
    the cities alone. *)
Theorem click_without_turret :
  forall x y s,
    (gameState s <> PLAYING -> handleCanvasClick x y s = s)
    /\ ((forall t, In t (turrets s) -> eligible t = false) ->
        handleCanvasClick x y s = s)
    /\ control (handleCanvasClick x y s) = control s
    /\ rockets (handleCanvasClick x y s) = rockets s
    /\ explosions (handleCanvasClick x y s) = explosions s
    /\ cities (handleCanvasClick x y s) = cities s.
Proof. exact click_no_turret. Qed.

(** ** Turrets and cities through a match *)

Lemma Forall2_refl_on :
  forall (A : Type) (R : A -> A -> Prop),
    (forall a, R a a) -> forall l, Forall2 R l l.
Proof. intros A R H; induction l; constructor; auto. Qed.

Lemma Forall2_trans_on :
  forall (A : Type) (R : A -> A -> Prop),
    (forall a b c, R a b -> R b c -> R a c) ->
    forall l1 l2 l3, Forall2 R l1 l2 -> Forall2 R l2 l3 -> Forall2 R l1 l3.
Proof.
  intros A R H l1 l2 l3 H12; revert l3; induction H12; intros l3 H23;
    inversion H23; subst; constructor; eauto.
Qed.

Lemma Forall2_modify_nth :
  forall (A : Type) (R : A -> A -> Prop) (f : A -> A) n l,
    (forall a, R a a) -> (forall a, R a (f a)) -> Forall2 R l (modify_nth n f l).
Proof.
  intros A R f n l Hr Hf; revert n; induction l as [|a l IH]; intros n;
    destruct n; simpl; constructor; auto using Forall2_refl_on.
Qed.

Lemma Forall_modify_nth :
  forall (A : Type) (P : A -> Prop) (f : A -> A) n l,
    (forall a, nth_error l n = Some a -> P a -> P (f a)) ->
    Forall P l -> Forall P (modify_nth n f l).
Proof.
  intros A P f n l; revert n; induction l as [|a l IH]; intros n Hf Hl;
    destruct n; simpl; auto; inversion Hl; subst; constructor; auto.
Qed.

Lemma laterTurret_refl : forall t, laterTurret t t.
Proof. unfold laterTurret; intuition. Qed.

Lemma laterTurret_trans :
  forall a b c, laterTurret a b -> laterTurret b c -> laterTurret a c.
Proof. unfold laterTurret; intros a b c H1 H2; intuition congruence. Qed.

Lemma laterCity_refl : forall c, laterCity c c.
Proof. unfold laterCity; intuition. Qed.

Lemma laterCity_trans :
  forall a b c, laterCity a b -> laterCity b c -> laterCity a c.
Proof. unfold laterCity; intros a b c H1 H2; intuition congruence. Qed.

Lemma laterCity_hit : forall rx c, laterCity c (hitCity rx c).
Proof.
  intros rx c; unfold laterCity, hitCity.
  destruct (c_active c && inStrip (c_x c) rx); simpl; intuition discriminate.
Qed.

Lemma laterTurret_worn : forall t t', worn t t' -> laterTurret t t'.
Proof. unfold worn, laterTurret; intuition. Qed.

Lemma laterTurret_refill : forall t, laterTurret t (refill t).
Proof.
  intros [x y a m act]; unfold laterTurret, refill; simpl.
  destruct act; simpl; repeat split; auto.
Qed.

Lemma laterTurret_useAmmo : forall t, laterTurret t (useAmmo t).
Proof. intros t; unfold laterTurret, useAmmo; simpl; intuition. Qed.

(** What a click does to the turrets. *)
Lemma click_turrets :
  forall x y s,
    turrets (handleCanvasClick x y s) = turrets s
    \/ exists i t, nth_error (turrets s) i = Some t /\ eligible t = true
                   /\ turrets (handleCanvasClick x y s)
                      = modify_nth i useAmmo (turrets s).
Proof.
  intros x y s; unfold handleCanvasClick.
  destruct (negb (GameState_eqb (gameState s) PLAYING)); auto.
  set (acc0 := ((-1)%Z, PrimFloat.infinity)).
  destruct (nearestTurret_full (turrets s) 0 x y acc0) as [E|(Hle & t & Hn & Het & _)].
  - rewrite E. auto.
  - rewrite Z.sub_0_r in Hn. destruct (negb _); auto.
    rewrite Hn. right. exists (Z.to_nat (fst (nearestTurret (turrets s) 0 x y acc0))), t.
    auto.
Qed.

Lemma cities_simulate : forall f s, Forall2 laterCity (cities s) (cities (simulate f s)).
Proof.
  intros f s.
  assert (E : simulate f s = warningsPhase (explosionsPhase (afterKinematics f s)))
    by reflexivity.
  rewrite E. unfold warningsPhase; cbn [cities set_warnings].
  set (I := fun t : Game => Forall2 laterCity (cities s) (cities t)).
  apply (explosionsPhase_inv I); [| auto |].
  - apply explosionFrame_inv; auto.
    intros e r t Ht; unfold blastFrame. destruct (inBlast e r); auto.
  - unfold I, afterKinematics.
    destruct (interceptorsPhase_fields (rocketsPhase (spawnPhase f s))) as (_ & _ & ->).
    apply (rocketsPhase_inv I); [| auto |].
    + intros a t Ht; unfold rocketFrame.
      destruct (rocket_arrived (rocket_advance a)); auto.
      unfold I in *. cbn [snd cities groundImpact set_turrets set_cities pushExplosion
                            set_explosions].
      eapply Forall2_trans_on; [apply laterCity_trans | exact Ht |].
      apply Forall2_map_r. apply laterCity_hit.
    + unfold I. destruct (spawnPhase_fields f s) as (_ & _ & _ & -> & _).
      apply Forall2_refl_on. apply laterCity_refl.
Qed.

Lemma cities_progression :
  forall s, cities (commit (roundAdvance (winLoss (refill800 (refill500 s)))))
            = cities s.
Proof.
  intros s; unfold commit, roundAdvance, winLoss, refill800, refill500, refillTurrets.
  repeat match goal with |- context [if ?c then _ else _] => destruct c end;
    reflexivity.
Qed.

Lemma Forall2_worn_later :
  forall ts ts', Forall2 worn ts ts' -> Forall2 laterTurret ts ts'.
Proof. induction 1; constructor; auto using laterTurret_worn. Qed.

Lemma later_step :
  forall s s', step s s' ->
    Forall2 laterTurret (turrets s) (turrets s')
    /\ Forall2 laterCity (cities s) (cities s').
Proof.
  intros s s' [f|x y].
  - destruct (playing_dec s) as [Hp|Hn].
    + rewrite (update_playing f s Hp). unfold beforeRoundCheck. split.
      * apply progression_turrets
          with (P := fun ts => Forall2 laterTurret (turrets s) ts).
        -- intros ts Hts. eapply Forall2_trans_on;
             [apply laterTurret_trans | exact Hts |].
           apply Forall2_map_r. apply laterTurret_refill.
        -- apply Forall2_worn_later. apply turrets_simulate.
      * rewrite cities_progression. apply cities_simulate.
    + rewrite (update_idle f s Hn).
      split; apply Forall2_refl_on; auto using laterTurret_refl, laterCity_refl.
  - split.
    + destruct (click_turrets x y s) as [E|(i & t & _ & _ & E)]; rewrite E.
      * apply Forall2_refl_on, laterTurret_refl.
      * apply Forall2_modify_nth; auto using laterTurret_refl, laterTurret_useAmmo.
    + destruct (click_no_turret x y s) as (_&_&_&_&_&E). rewrite E.
      apply Forall2_refl_on, laterCity_refl.
Qed.

Lemma later_steps :
  forall s s', steps s s' ->
    Forall2 laterTurret (turrets s) (turrets s')
    /\ Forall2 laterCity (cities s) (cities s').
Proof.
  intros s s' Hs; induction Hs as [|s1 s2 _ IH Hst].
  - split; apply Forall2_refl_on; auto using laterTurret_refl, laterCity_refl.
  - destruct IH as [I1 I2]. destruct (later_step Hst) as [J1 J2]. split.
    + eapply Forall2_trans_on; eauto using laterTurret_trans.
    + eapply Forall2_trans_on; eauto using laterCity_trans.
Qed.

(** X11.  The layout of a match is permanent: through every sequence of
    frames and clicks the turrets and the cities keep their number, their
    order, their positions and (turrets) their [maxAmmo], and one that is
    inactive never becomes active again. *)
Theorem layout_is_permanent :
  forall s s', steps s s' ->
    Forall2 laterTurret (turrets s) (turrets s')
    /\ Forall2 laterCity (cities s) (cities s').
Proof. exact later_steps. Qed.

Lemma ammoOk_worn :
  forall ts ts', Forall2 worn ts ts' -> ammoOk ts -> ammoOk ts'.
Proof.
  unfold ammoOk; induction 1 as [|t t' ts ts' Hw _ IH]; intros Ha; auto.
  inversion Ha; subst. constructor; auto.
  destruct Hw as (_&_&E1&E2&_). rewrite E1, E2; auto.
Qed.

Lemma ammoOk_refill : forall ts, ammoOk ts -> ammoOk (map refill ts).
Proof.
  unfold ammoOk; induction 1 as [|t ts Ht _ IH]; simpl; constructor; auto.
  unfold refill. destruct (t_active t); simpl; lia.
Qed.

Lemma ammoOk_step : forall s s', step s s' -> ammoOk (turrets s) -> ammoOk (turrets s').
Proof.
  intros s s' [f|x y] Ha.
  - destruct (playing_dec s) as [Hp|Hn].
    + rewrite (update_playing f s Hp). unfold beforeRoundCheck.
      apply progression_turrets with (P := ammoOk); [apply ammoOk_refill|].
      exact (ammoOk_worn (turrets_simulate f s) Ha).
    + rewrite (update_idle f s Hn); exact Ha.
  - destruct (click_turrets x y s) as [E|(i & t & Hn & He & E)]; rewrite E; auto.
    unfold ammoOk. apply Forall_modify_nth; auto.
    intros a Hna Hb. assert (a = t) by congruence. subst a.
    unfold eligible in He. apply andb_true_iff in He. destruct He as [_ He].
    apply Z.ltb_lt in He. unfold useAmmo; simpl. lia.
Qed.

(** X12.  Ammunition stays within bounds: in a match started by
    [startGame] on a mounted container, every turret has
    [0 <= ammo <= maxAmmo] after every sequence of frames and clicks (a
    launch needs [ammo > 0], a refill sets [ammo] to [maxAmmo]). *)
Theorem ammo_within_bounds :
  forall mode w h s0 s,
    steps (startGame mode (Some (w, h)) s0) s -> ammoOk (turrets s).
Proof.
  intros mode w h s0 s Hs; induction Hs as [|s1 s2 _ IH Hst].
  - unfold ammoOk, startGame, initLayout; simpl. repeat constructor; simpl; lia.
  - eapply ammoOk_step; eauto.
Qed.

(** ** High score *)




(** ** Counters and latches of a match *)

Lemma counters_step :
  forall s s', step s s' ->
    gameMode s' = gameMode s /\ (round s <= round s' <= round s + 1)%Z.
Proof.
  intros s s' [f|x y].
  - destruct (playing_dec s) as [Hp|Hn].
    + destruct (update_cells f s Hp) as (Hm&_&_&Hr&_). rewrite Hm, Hr.
      destruct (roundOver _); split; auto; lia.
    + rewrite (update_idle f s Hn). split; auto; lia.
  - destruct (control_fields (control_click x y s)) as (_&Hm&_&_&Hr&_).
    rewrite Hm, Hr. split; auto; lia.
Qed.

Lemma counters_steps :
  forall mode container s0 s,
    steps (startGame mode container s0) s ->
    gameMode s = mode /\ (1 <= round s)%Z
    /\ (0 <= score s)%Z /\ (ROCKET_SCORE | score s)%Z.
Proof.
  intros mode container s0 s Hs.
  assert (H0 : gameMode (startGame mode container s0) = mode
               /\ round (startGame mode container s0) = 1%Z
               /\ score (startGame mode container s0) = 0%Z
               /\ scoreQueue (startGame mode container s0) = 0%Z).
  { unfold startGame. destruct container as [[w h]|]; auto. }
  destruct H0 as (M0 & R0 & S0 & Q0).
  destruct (score_steps_quantized Q0 Hs) as (_ & k & Hk).
  assert (Hmr : gameMode s = mode /\ (1 <= round s)%Z).
  { clear Hk. induction Hs as [|s1 s2 _ IH Hst]; [split; auto; lia|].
    destruct IH as [I1 I2]. destruct (counters_step Hst) as [J1 J2].
    split; [congruence | lia]. }
  destruct Hmr as [Hm Hr]. rewrite Hk, S0. unfold ROCKET_SCORE.
  repeat split; auto; try lia. exists (Z.of_nat k). lia.
Qed.

(** X14.  The counters of a match started by [startGame]: after every
    sequence of frames and clicks the game mode is the one the match was
    started with, the round is at least 1, and the score is a
    non-negative multiple of [ROCKET_SCORE]. *)
Theorem counters_of_a_match :
  forall mode container s0 s,
    steps (startGame mode container s0) s ->
    gameMode s = mode /\ (1 <= round s)%Z
    /\ (0 <= score s)%Z /\ (ROCKET_SCORE | score s)%Z.
Proof. exact counters_steps. Qed.

Lemma latches_step :
  forall s s', step s s' ->
    (hasRefilledAt500 s' = hasRefilledAt500 s
     \/ (hasRefilledAt500 s' = true /\ (500 <= score s)%Z))
    /\ (lastRefillScore s' = lastRefillScore s
        \/ (lastRefillScore s' = score s /\ gameMode s = ENDLESS
            /\ (0 < score s)%Z /\ (800 | score s)%Z)).
Proof.
  intros s s' [f|x y].
  - destruct (playing_dec s) as [Hp|Hn].
    + destruct (update_cells f s Hp) as (_&Hl&Hr&_). rewrite Hl, Hr. split.
      * unfold refill500_fires. destruct (500 <=? score s)%Z eqn:E; simpl.
        -- apply Z.leb_le in E. destruct (hasRefilledAt500 s); simpl; auto.
        -- rewrite orb_false_r; auto.
      * destruct (refill800_fires s) eqn:E; auto.
        apply refill800_fires_iff in E. right; tauto.
    + rewrite (update_idle f s Hn). auto.
  - destruct (control_fields (control_click x y s)) as (_&_&_&_&_&Hl&Hr&_).
    rewrite Hl, Hr. auto.
Qed.

(** X15.  The refill latches of a match started by [startGame] agree
    with the score: the 500-point latch is closed only if the score has
    reached 500, and the last refill score is 0 (none yet) or, in endless
    mode only, a positive multiple of 800 that the score has reached.  A
    classic match never gets the 800-point refill. *)
Theorem refill_latches_follow_score :
  forall mode container s0 s,
    steps (startGame mode container s0) s ->
    (hasRefilledAt500 s = true -> (500 <= score s)%Z)
    /\ (lastRefillScore s = 0%Z
        \/ (mode = ENDLESS /\ (0 < lastRefillScore s <= score s)%Z
            /\ (800 | lastRefillScore s)%Z)).
Proof.
  intros mode container s0 s Hs.
  assert (H0 : forall t, steps (startGame mode container s0) t ->
                 scoreQueue t = 0%Z /\ gameMode t = mode).
  { intros t Ht.
    assert (Q0 : scoreQueue (startGame mode container s0) = 0%Z)
      by (unfold startGame; destruct container as [[w h]|]; auto).
    destruct (score_steps_quantized Q0 Ht) as [Hq _].
    destruct (counters_steps Ht) as (Hm & _). auto. }
  induction Hs as [|s1 s2 Hs1 IH Hst].
  - unfold startGame. destruct container as [[w h]|]; simpl; split; auto; discriminate.
  - destruct IH as [I1 I2]. destruct (H0 s1 Hs1) as [Q1 M1].
    destruct (score_step Hst Q1) as [_ Hmono].
    destruct (latches_step Hst) as [[L|[L Hl]] [R|(R & Rm & Rp & Rd)]].
    + split; [rewrite L; intros H; specialize (I1 H); lia|].
      rewrite R. destruct I2 as [I2|(I2 & I3 & I4)]; [auto | right; repeat split; auto; lia].
    + split; [rewrite L; intros H; specialize (I1 H); lia|].
      rewrite R. right. repeat split; auto; try lia. congruence.
    + split; [intros _; lia|].
      rewrite R. destruct I2 as [I2|(I2 & I3 & I4)]; [auto | right; repeat split; auto; lia].
    + split; [intros _; lia|].
      rewrite R. right. repeat split; auto; try lia. congruence.
Qed.

(** ** The life of an explosion *)

Lemma explosion_after_add :
  forall n k e0 e, explosion_after k e0 = Some e ->
    explosion_after (n + k) e0 = explosion_after n e.
Proof.
  intros n k e0 e H; induction n as [|n IH]; simpl; [exact H|].
  rewrite IH. reflexivity.
Qed.

Lemma lawfulStore_steps :
  forall mode container s0 s,
    steps (startGame mode container s0) s -> lawfulStore s.
Proof.
  intros mode container s0 s Hs; induction Hs as [|s1 s2 _ IH Hst].
  - unfold lawfulStore, startGame. destruct container as [[w h]|]; simpl; constructor.
  - eapply lawfulStore_step; eauto.
Qed.

(** X16.  Explosions are transient: no explosion in the store of a match
    survives 91 more frames of the explosion filter, and one of
    [maxRadius] 55 does not survive 80 (30 or 41 frames of growth, then
    50 frames of fading until [alpha] is spent). *)
Theorem explosions_expire :
  forall mode container s0 s e,
    steps (startGame mode container s0) s ->
    In e (explosions s) ->
    explosion_after 91 e = None
    /\ (e_maxRadius e = 55%float -> explosion_after 80 e = None).
Proof.
  intros mode container s0 s e Hs Hin.
  pose proof (lawfulStore_steps Hs) as Hl. unfold lawfulStore in Hl.
  rewrite Forall_forall in Hl. destruct (Hl e Hin) as (pos & mr & k & Hmr & Hk).
  assert (Hm : e_maxRadius e = mr).
  { clear Hin Hl. revert e Hk. induction k as [|k IH]; intros e Hk; simpl in Hk.
    - inversion Hk; reflexivity.
    - destruct (explosion_after k (newExplosion pos mr)) as [e1|] eqn:E1; [|discriminate].
      destruct (explosion_alive (explosion_advance e1)); [|discriminate].
      inversion Hk; subst. rewrite <- (IH e1 eq_refl).
      unfold explosion_advance. destruct (e_growing e1); reflexivity. }
  assert (Hgone : forall n, explosion_after n (newExplosion pos mr) = None ->
                    explosion_after n e = None).
  { intros n Hn. rewrite <- (explosion_after_add n k _ Hk).
    replace (n + k)%nat with (k + n)%nat by lia. apply explosion_after_gone; exact Hn. }
  destruct Hmr as [->| ->].
  - destruct (life_small pos) as [_ H80]. split; [|intros _; auto].
    apply Hgone. apply (explosion_after_gone _ 80 11 H80).
  - destruct (life_large pos) as [_ H91]. split; [auto|].
    intros H55. rewrite Hm in H55. vm_compute in H55.
    apply (f_equal (fun x => PrimFloat.eqb x 55)) in H55. vm_compute in H55. discriminate.
Qed.

(** ** Spawn cadence *)

Lemma table_lookup :
  forall (check : nat -> bool) (n : nat),
    forallb check (seq 1 n) = true ->
    forall r, (1 <= r <= Z.of_nat n)%Z -> check (Z.to_nat r) = true.
Proof.
  intros check n H r Hr. rewrite forallb_forall in H. apply H.
  apply in_seq. lia.
Qed.

Lemma spawnDelay_table : forallb spawnDelay_exact (seq 1 1000) = true.
Proof. vm_compute. reflexivity. Qed.

Lemma rocketSpeed_table : forallb rocketSpeed_grows (seq 1 1000) = true.
Proof. vm_compute. reflexivity. Qed.

(** What the loop sees.  No phase of a frame writes [shake], [seenRound]
    or, after the spawn, [nextRocketTime]: they change at the commit. *)
Lemma sight_simulate_from :
  forall s0,
    seenRound (warningsPhase (explosionsPhase (interceptorsPhase (rocketsPhase s0))))
    = seenRound s0
    /\ shake (warningsPhase (explosionsPhase (interceptorsPhase (rocketsPhase s0))))
       = shake s0
    /\ nextRocketTime
         (warningsPhase (explosionsPhase (interceptorsPhase (rocketsPhase s0))))
       = nextRocketTime s0.
Proof.
  intros s0. set (s := s0).
  assert (H0 : seenRound s0 = seenRound s /\ shake s0 = shake s
               /\ nextRocketTime s0 = nextRocketTime s) by auto.
  set (I := fun t : Game => seenRound t = seenRound s /\ shake t = shake s
                            /\ nextRocketTime t = nextRocketTime s).
  assert (H1 : I (rocketsPhase s0)).
  { apply rocketsPhase_inv; auto. intros a t Ht; unfold rocketFrame.
    destruct (rocket_arrived (rocket_advance a)); simpl; auto. }
  assert (H2 : I (interceptorsPhase (rocketsPhase s0))).
  { apply interceptorsPhase_inv; auto. intros a t Ht; unfold interceptorFrame.
    destruct (interceptor_arrived (interceptor_advance a)); simpl; auto. }
  assert (H3 : I (explosionsPhase (interceptorsPhase (rocketsPhase s0)))).
  { apply explosionsPhase_inv; auto. apply explosionFrame_inv; auto.
    intros e r t Ht; unfold blastFrame. destruct (inBlast e r); simpl; auto. }
  exact H3.
Qed.

Lemma sight_spawnPhase :
  forall f s,
    seenRound (spawnPhase f s) = seenRound s /\ shake (spawnPhase f s) = shake s
    /\ nextRocketTime (spawnPhase f s)
       = (if (nextRocketTime s <? f_time f)%float
          then (f_time f + spawnDelay (seenRound s))%float else nextRocketTime s).
Proof.
  intros f s; unfold spawnPhase.
  destruct (nextRocketTime s <? f_time f)%float; [|auto].
  unfold spawnRocket. destruct (length (spawnTargets s) =? 0)%nat; [auto|].
  destruct (nth_error _ _); auto.
Qed.

Lemma sight_simulate :
  forall f s,
    seenRound (simulate f s) = seenRound s /\ shake (simulate f s) = shake s
    /\ nextRocketTime (simulate f s)
       = (if (nextRocketTime s <? f_time f)%float
          then (f_time f + spawnDelay (seenRound s))%float else nextRocketTime s).
Proof.
  intros f s. destruct (sight_spawnPhase f s) as (A & B & C).
  destruct (sight_simulate_from (spawnPhase f s)) as (A' & B' & C').
  unfold simulate. rewrite A', B', C'. auto.
Qed.

Lemma sight_progression :
  forall s,
    seenRound (roundAdvance (winLoss (refill800 (refill500 s)))) = seenRound s
    /\ shake (roundAdvance (winLoss (refill800 (refill500 s)))) = shake s
    /\ nextRocketTime (roundAdvance (winLoss (refill800 (refill500 s))))
       = nextRocketTime s.
Proof.
  intros s.
  assert (H5 : seenRound (refill500 s) = seenRound s /\ shake (refill500 s) = shake s
               /\ nextRocketTime (refill500 s) = nextRocketTime s).
  { unfold refill500; destruct (refill500_fires s); auto. }
  set (a := refill500 s) in *.
  assert (H8 : seenRound (refill800 a) = seenRound a /\ shake (refill800 a) = shake a
               /\ nextRocketTime (refill800 a) = nextRocketTime a).
  { unfold refill800; destruct (refill800_fires a); auto. }
  set (b := refill800 a) in *.
  assert (Hw : seenRound (winLoss b) = seenRound b /\ shake (winLoss b) = shake b
               /\ nextRocketTime (winLoss b) = nextRocketTime b).
  { unfold winLoss. destruct (_ && _); auto. destruct (allTurretsDown b); auto.
    destruct (highScore b <? score b)%Z; auto. }
  set (c := winLoss b) in *.
  assert (Hr : seenRound (roundAdvance c) = seenRound c /\ shake (roundAdvance c) = shake c
               /\ nextRocketTime (roundAdvance c) = nextRocketTime c).
  { unfold roundAdvance; destruct (roundOver c); auto. }
  intuition congruence.
Qed.

Lemma commit_sight :
  forall s,
    seenRound (commit s) = (if rerenders s then round s else seenRound s)
    /\ shake (commit s) = nextShake s
    /\ shakeSet (commit s) = None
    /\ nextRocketTime (commit s) = nextRocketTime s.
Proof. intros s; repeat split. Qed.

Lemma update_sight :
  forall f s, gameState s = PLAYING ->
    let m := roundAdvance (beforeRoundCheck f s) in
    seenRound (update f s) = (if rerenders m then round m else seenRound s)
    /\ shake (update f s) = nextShake m
    /\ shake m = shake s
    /\ round (update f s) = round m
    /\ gameState (update f s) = gameState m
    /\ score (update f s) = (score s + scoreQueue m)%Z
    /\ nextRocketTime (update f s)
       = (if (nextRocketTime s <? f_time f)%float
          then (f_time f + spawnDelay (seenRound s))%float else nextRocketTime s).
Proof.
  intros f s Hp m. rewrite (update_playing f s Hp). fold m.
  destruct (commit_sight m) as (A & B & _ & C).
  destruct (commit_cells m) as (Kg&_&_&Krd&_).
  destruct (commit_score m) as (_ & Ks).
  destruct (sight_progression (simulate f s)) as (P1 & P2 & P3).
  destruct (sight_simulate f s) as (S1 & S2 & S3).
  assert (Hs : score m = score s).
  { unfold m, beforeRoundCheck.
    destruct (roundAdvance_cells (winLoss (refill800 (refill500 (simulate f s)))))
      as (_&_&R1&_).
    destruct (winLoss_cells (refill800 (refill500 (simulate f s)))) as (_&W1&_).
    destruct (refill800_cells (refill500 (simulate f s))) as (_&_&E1&_).
    destruct (refill500_cells (simulate f s)) as (_&_&F1&_).
    destruct (control_fields (control_simulate f s)) as (_&_&C1&_).
    congruence. }
  unfold m, beforeRoundCheck in *.
  rewrite A, B, C, Kg, Krd, Ks, P1, P2, P3, S1, S2, S3, Hs. repeat split.
Qed.

(** X17.  Which round the spawn code uses (lines 322-325, 645, 669).  The
    loop runs the [update] of the last render that changed [gameState],
    [score] or [shake].  So a frame of a running match computes the spawn
    delay [max(400, 2000 - 150 * round)] from the round that [update]
    closed over, and after the frame the loop sees the current round
    exactly if the frame changed one of the three; otherwise it goes on
    with the round it saw, also when this very frame advanced the round.
    In binary64 the delay is the integer [max(400, 2000 - 150 * n)]
    exactly for n from 1 to 1000, and 400 ms from 11 on. *)
Theorem spawn_cadence :
  forall f s, gameState s = PLAYING ->
    nextRocketTime (update f s)
    = (if (nextRocketTime s <? f_time f)%float
       then (f_time f + spawnDelay (seenRound s))%float else nextRocketTime s)
    /\ seenRound (update f s)
       = (if GameState_eqb (gameState (update f s)) PLAYING
             && (score (update f s) =? score s)%Z
             && PrimFloat.Leibniz.eqb (shake (update f s)) (shake s)
          then seenRound s else round (update f s))
    /\ (forall n, (1 <= n <= 1000)%Z ->
          spawnDelay n = Z2F (Z.max 400 (2000 - 150 * n)))
    /\ (forall n, (11 <= n <= 1000)%Z -> spawnDelay n = 400%float).
Proof.
  intros f s Hp.
  assert (T : forall r, (1 <= r <= 1000)%Z ->
                spawnDelay r = Z2F (Z.max 400 (2000 - 150 * r))).
  { intros r Hr.
    pose proof (@table_lookup spawnDelay_exact 1000 spawnDelay_table r Hr) as H.
    unfold spawnDelay_exact in H. rewrite Z2Nat.id in H by lia.
    apply FloatAxioms.Leibniz.eqb_spec in H. exact H. }
  destruct (update_sight f s Hp) as (A & B & C & D & E & F & G).
  set (m := roundAdvance (beforeRoundCheck f s)) in *.
  split; [exact G | split; [|split; [exact T|]]].
  - rewrite A, B, D, E, F, <- C. unfold rerenders.
    replace (score s + scoreQueue m =? score s)%Z with (scoreQueue m =? 0)%Z
      by (destruct (scoreQueue m =? 0)%Z eqn:Q;
          [apply Z.eqb_eq in Q; rewrite Q, Z.add_0_r; symmetry; apply Z.eqb_refl
          | apply Z.eqb_neq in Q; symmetry; apply Z.eqb_neq; lia]).
    destruct (GameState_eqb (gameState m) PLAYING), (scoreQueue m =? 0)%Z,
      (PrimFloat.Leibniz.eqb (nextShake m) (shake m)); reflexivity.
  - intros r Hr. rewrite T by lia.
    replace (Z.max 400 (2000 - 150 * r)) with 400%Z by lia. reflexivity.
Qed.

(** The speeds of the rockets through a frame and through a match. *)
Lemma rockets_simulate_Forall :
  forall (P : Rocket float -> Prop),
    (forall r, P r -> P (rocket_advance r)) ->
    forall f s, Forall P (rockets (spawnPhase f s)) ->
      Forall P (rockets (simulate f s)).
Proof.
  intros P Hadv f s H0. unfold simulate. set (s1 := spawnPhase f s) in *.
  assert (H1 : Forall P (rockets (rocketsPhase s1))).
  { unfold rocketsPhase.
    pose proof (@filterWith_Forall _ Game P P rocketFrame) as HF.
    assert (Hcb : forall a t a', P a -> fst (rocketFrame a t) = Some a' -> P a').
    { intros a t a' Ha; unfold rocketFrame.
      destruct (rocket_arrived (rocket_advance a)); simpl; [discriminate|].
      intros E; inversion E; subst; auto. }
    specialize (HF Hcb (rockets s1) s1 H0).
    destruct (filterWith rocketFrame (rockets s1) s1); exact HF. }
  destruct (interceptorsPhase_fields (rocketsPhase s1)) as (E2 & _).
  rewrite <- E2 in H1. set (s3 := interceptorsPhase (rocketsPhase s1)) in *.
  assert (H3 : Forall P (rockets (explosionsPhase s3))).
  { apply (explosionsPhase_inv (fun t => Forall P (rockets t))); auto.
    intros e t Ht; unfold explosionFrame.
    pose proof (@filterWith_Forall _ Game P P (blastFrame (explosion_advance e))) as HF.
    assert (Hcb : forall a u a', P a ->
                    fst (blastFrame (explosion_advance e) a u) = Some a' -> P a').
    { intros a u a' Ha; unfold blastFrame.
      destruct (inBlast (explosion_advance e) a); simpl; [discriminate|].
      intros E; inversion E; subst; auto. }
    specialize (HF Hcb (rockets t) t Ht).
    destruct (filterWith (blastFrame (explosion_advance e)) (rockets t) t); exact HF. }
  exact H3.
Qed.

Lemma seasoned_weaken :
  forall a b r, (a <= b)%Z -> seasoned a r -> seasoned b r.
Proof. intros a b r H (n & Hn & E); exists n; split; [lia | exact E]. Qed.

Lemma paced_click :
  forall x y s, paced s -> paced (handleCanvasClick x y s).
Proof.
  intros x y s H.
  destruct (click_no_turret x y s) as (_&_&Hc&Hr&_).
  destruct (control_fields Hc) as (_&_&_&_&Hrd&_).
  assert (Hs : seenRound (handleCanvasClick x y s) = seenRound s).
  { unfold handleCanvasClick.
    destruct (negb (GameState_eqb (gameState s) PLAYING)); auto.
    destruct (negb _); auto. destruct (nth_error _ _); auto. }
  unfold paced in *. rewrite Hs, Hrd, Hr. exact H.
Qed.

Lemma paced_update :
  forall f s, paced s -> paced (update f s).
Proof.
  intros f s [Hb Hr].
  destruct (playing_dec s) as [Hp|Hn]; [|rewrite (update_idle f s Hn); split; auto].
  destruct (update_sight f s Hp) as (A & _ & _ & D & _).
  destruct (update_cells f s Hp) as (_&_&_&Hrd&_).
  destruct (update_score f s Hp) as (_ & _ & Hro).
  set (m := roundAdvance (beforeRoundCheck f s)) in *.
  assert (Hup : (seenRound s <= seenRound (update f s) <= round (update f s))%Z
                /\ (round s <= round (update f s))%Z).
  { rewrite A, <- D, Hrd.
    destruct (rerenders m), (roundOver (beforeRoundCheck f s)); lia. }
  destruct Hup as [Hup _]. split; [lia|]. rewrite Hro.
  apply Forall_impl with (P := seasoned (seenRound s));
    [intros r; apply seasoned_weaken; lia|].
  apply rockets_simulate_Forall.
  - intros r (n & Hn & E); exists n; split; auto.
  - unfold spawnPhase. destruct (nextRocketTime s <? f_time f)%float; auto.
    unfold spawnRocket. destruct (length (spawnTargets s) =? 0)%nat; auto.
    destruct (nth_error _ _); auto. cbn [rockets set_rockets set_warnings set_nextRocketTime].
    apply Forall_app; split; auto. constructor; auto.
    exists (seenRound s); split; [lia | reflexivity].
Qed.

Lemma paced_steps :
  forall s s', steps s s' -> paced s -> paced s'.
Proof.
  intros s s' Hs H; induction Hs as [|s1 s2 _ IH [f|x y]]; auto.
  - apply paced_update; auto.
  - apply paced_click; auto.
Qed.

Lemma rocketSpeed_rises :
  forall k n, (1 <= n)%Z -> (n + Z.of_nat k <= 1000)%Z ->
    (rocketSpeed n <? rocketSpeed (n + Z.of_nat (S k)))%float = true.
Proof.
  induction k as [|k IH]; intros n H1 H2.
  - pose proof (@table_lookup rocketSpeed_grows 1000 rocketSpeed_table n) as H.
    unfold rocketSpeed_grows in H. rewrite Z2Nat.id in H by lia.
    change (Z.of_nat 1) with 1%Z. apply H. simpl in H2. lia.
  - apply ltb_trans with (rocketSpeed (n + Z.of_nat (S k))); [apply IH; lia|].
    pose proof (@table_lookup rocketSpeed_grows 1000 rocketSpeed_table
                  (n + Z.of_nat (S k))%Z) as H.
    unfold rocketSpeed_grows in H. rewrite Z2Nat.id in H by lia.
    replace (n + Z.of_nat (S (S k)))%Z with (n + Z.of_nat (S k) + 1)%Z by lia.
    apply H. lia.
Qed.

Lemma rocketSpeed_not_above :
  forall n m, (1 <= n <= m)%Z -> (m <= 1000)%Z ->
    (rocketSpeed m <? rocketSpeed n)%float = false.
Proof.
  intros n m H1 H2. destruct (Z.eq_dec n m) as [->|Hne]; [apply ltb_irrefl|].
  assert (H : (rocketSpeed n <? rocketSpeed m)%float = true).
  { replace m with (n + Z.of_nat (S (Z.to_nat (m - n - 1))))%Z by lia.
    apply rocketSpeed_rises; lia. }
  destruct (rocketSpeed m <? rocketSpeed n)%float eqn:E; [|reflexivity].
  rewrite <- (ltb_irrefl (rocketSpeed n)). symmetry.
  apply ltb_trans with (rocketSpeed m); assumption.
Qed.

(** X18.  Rocket speeds through a match (lines 267, 327-350, 377-390).  In
    every state of a match started from outside PLAYING, the round the
    loop sees is between 1 and the current round, and every rocket in
    flight has the speed [1.2 + n * 0.15] of a round [n] between 1 and
    the round the loop sees: no frame changes the speed of a rocket.  In
    binary64 that speed rises strictly from each round to the next, so up
    to round 1000 no rocket in flight is faster than the speed of the
    current round. *)
Theorem rockets_speed_up :
  forall mode container s0 s,
    gameState s0 <> PLAYING ->
    steps (startGame mode container s0) s ->
    (1 <= seenRound s <= round s)%Z
    /\ Forall (seasoned (seenRound s)) (rockets s)
    /\ ((round s <= 1000)%Z ->
        Forall (fun r => (rocketSpeed (round s) <? r_speed r)%float = false)
          (rockets s)).
Proof.
  intros mode container s0 s Hn Hs.
  assert (H0 : paced (startGame mode container s0)).
  { assert (E : GameState_eqb (gameState s0) PLAYING = false)
      by (destruct (gameState s0); try reflexivity; congruence).
    unfold paced, startGame. rewrite E.
    destruct container as [[w h]|]; simpl; split; auto; lia. }
  destruct (paced_steps Hs H0) as [Hb Hr]. repeat split; try lia; auto.
  intros Hk. apply Forall_impl with (2 := Hr).
  intros r (n & Hn' & E). rewrite E. apply rocketSpeed_not_above; lia.
Qed.

(** A round advance the loop does not see: in [spent] the round ends in a
    frame without kill or shake, and the rocket spawned by the next frame
    has the speed of round 1 in round 2. *)
Example stale_round_runs :
  round (update quietFrame spent) = 2%Z
  /\ seenRound (update quietFrame spent) = 1%Z
  /\ map (@r_speed float)
       (rockets (update (mkFrame 2.0e9 800 0.5 0) (update quietFrame spent)))
     = [ rocketSpeed 1 ].
Proof. vm_compute. repeat split. Qed.

(** ** Restart *)

(** X20.  [startGame] does not touch the spawn timer (lines 229-247 reset
    neither [nextRocketTimeRef] nor the high score): a frame of the new
    match whose timestamp is not past the threshold the previous match
    left spawns nothing, and the match still has no rocket after it. *)
Theorem restart_keeps_spawn_timer :
  forall mode container s f,
    nextRocketTime (startGame mode container s) = nextRocketTime s
    /\ highScore (startGame mode container s) = highScore s
    /\ stored (startGame mode container s) = stored s
    /\ ((nextRocketTime s <? f_time f)%float = false ->
        rockets (update f (startGame mode container s)) = []).
Proof.
  intros mode container s f.
  assert (H : nextRocketTime (startGame mode container s) = nextRocketTime s
              /\ highScore (startGame mode container s) = highScore s
              /\ stored (startGame mode container s) = stored s
              /\ rockets (startGame mode container s) = []
              /\ gameState (startGame mode container s) = PLAYING).
  { unfold startGame. destruct container as [[w h]|]; repeat split. }
  destruct H as (H1 & H2 & H3 & H4 & H5). repeat split; auto.
  intros Hd. destruct (update_population f (startGame mode container s) H5) as (_ & Hn & _).
  rewrite H1, H4 in Hn. specialize (Hn Hd).
  destruct (rockets (update f (startGame mode container s))); [reflexivity|].
  cbn [length] in Hn; lia.
Qed.

(** ** Transient visuals *)

Lemma decay_gone :
  forall (A : Type) (frame : A -> option A) n k a,
    decay frame n a = None -> decay frame (k + n) a = None.
Proof.
  intros A frame n k a H; induction k as [|k IH]; simpl; auto. rewrite IH; reflexivity.
Qed.

Lemma lives49_spec :
  forall (A : Type) (frame : A -> option A) (a : A),
    lives49 frame a = true ->
    forall k, decay frame k a = None <-> (50 <= k)%nat.
Proof.
  intros A frame a H k. unfold lives49 in H. apply andb_true_iff in H.
  destruct H as [H1 H2]. rewrite forallb_forall in H1.
  destruct (Nat.lt_ge_cases k 50) as [Hlt|Hge].
  - specialize (H1 k). rewrite in_seq in H1.
    destruct (decay frame k a); [split; [discriminate | lia]|].
    assert (false = true) by (apply H1; lia). discriminate.
  - split; auto. intros _.
    replace k with ((k - 50) + 50)%nat by lia. apply decay_gone.
    destruct (decay frame 50 a); [discriminate | reflexivity].
Qed.

(** [warningsPhase] is the filter with the callback [warningFrame]. *)
Lemma warningsPhase_frames :
  forall s,
    warnings (warningsPhase s)
    = flat_map (fun w => match warningFrame w with Some w' => [w'] | None => [] end)
        (warnings s).
Proof.
  intros s; unfold warningsPhase; cbn [warnings set_warnings].
  induction (warnings s) as [|w l IH]; [reflexivity|].
  cbn [map filter flat_map]. rewrite IH. unfold warningFrame; cbn [w_life].
  destruct (0 <? w_life w - 0.02)%float; reflexivity.
Qed.

(** X21.  The transient visuals fade in exactly 50 frames (lines
    394-410): a warning, a particle and a floating text created with
    [life] 1 survive each of the next 49 passes of their filter and are
    dropped by the 50th, wherever they are and however they move. *)
Theorem transients_live_49_frames :
  (forall x k, decay warningFrame k (mkWarning x 1) = None <-> (50 <= k)%nat)
  /\ (forall x y vx vy size k,
        decay particleFrame k (mkParticle x y vx vy 1 size) = None <-> (50 <= k)%nat)
  /\ (forall x y k,
        decay floatingTextFrame k (mkFloatingText x y 1) = None <-> (50 <= k)%nat).
Proof.
  split; [|split]; intros; apply lives49_spec; vm_compute; reflexivity.
Qed.

(* ================================================================== *)
(** ** The layout of a match *)

(** X22.  Throughout a match started on a canvas of width [w] and height
    [h] there are exactly three turrets and six cities, in the order and
    at the places [initLayout] gave them: all on the ground line
    [h - 40], the turrets at 60, [w / 2] and [w - 60] with capacities 20,
    40 and 20, the cities at 18, 28, 38, 62, 72 and 82 percent of the
    width. *)
Theorem match_layout :
  forall mode w h s0 s,
    steps (startGame mode (Some (w, h)) s0) s ->
    map (fun t => (t_x t, t_y t, t_maxAmmo t)) (turrets s)
    = [ (60, h - 40, 20%Z); (w / 2, h - 40, 40%Z); (w - 60, h - 40, 20%Z) ]%float
    /\ map (fun c => (c_x c, c_y c)) (cities s)
       = [ (w * 0.18, h - 40); (w * 0.28, h - 40); (w * 0.38, h - 40);
           (w * 0.62, h - 40); (w * 0.72, h - 40); (w * 0.82, h - 40) ]%float.
Proof.
  intros mode w h s0 s Hs. destruct (later_steps Hs) as [Ht Hc].
  assert (Et : turrets (startGame mode (Some (w, h)) s0)
               = [ mkTurret 60 (h - 40) 20 20 true;
                   mkTurret (w / 2) (h - 40) 40 40 true;
                   mkTurret (w - 60) (h - 40) 20 20 true ]%float) by reflexivity.
  assert (Ec : cities (startGame mode (Some (w, h)) s0)
               = map (fun x => mkCity x (h - 40) true)
                   [ w * 0.18; w * 0.28; w * 0.38; w * 0.62; w * 0.72; w * 0.82 ]%float)
    by reflexivity.
  rewrite Et in Ht. rewrite Ec in Hc. clear Et Ec Hs. split.
  - repeat match goal with
           | H : Forall2 _ (_ :: _) _ |- _ => inversion H; subst; clear H
           | H : Forall2 _ [] _ |- _ => inversion H; subst; clear H
           | H : laterTurret _ _ |- _ => destruct H as (? & ? & ? & _)
           end.
    cbn [map t_x t_y t_maxAmmo] in *. repeat f_equal; assumption.
  - cbn [map] in Hc.
    repeat match goal with
           | H : Forall2 _ (_ :: _) _ |- _ => inversion H; subst; clear H
           | H : Forall2 _ [] _ |- _ => inversion H; subst; clear H
           | H : laterCity _ _ |- _ => destruct H as (? & ? & _)
           end.
    cbn [map c_x c_y] in *. repeat f_equal; assumption.
Qed.

(* ================================================================== *)
(** ** A click level with the turret, in binary64 *)

(** A finite number is a zero or has a mantissa. *)
Lemma finite_cases :
  forall y : float, PrimFloat.is_finite y = true ->
    (exists s, Prim2SF y = S754_zero s)
    \/ (exists s m e, Prim2SF y = S754_finite s m e).
Proof.
  intros y H. unfold PrimFloat.is_finite, PrimFloat.is_nan, PrimFloat.is_infinity in H.
  rewrite !FloatAxioms.eqb_spec, FloatAxioms.abs_spec in H.
  replace (Prim2SF PrimFloat.infinity) with (S754_infinity false) in H by reflexivity.
  destruct (Prim2SF y) as [s|s| |s m e].
  - left; exists s; reflexivity.
  - destruct s; vm_compute in H; discriminate.
  - vm_compute in H; discriminate.
  - right; exists s, m, e; reflexivity.
Qed.

Lemma sub_self_finite :
  forall y : float, PrimFloat.is_finite y = true -> (y - y)%float = 0%float.
Proof.
  intros y Hy. pose proof (FloatAxioms.sub_spec y y) as H. unfold SF64sub, SFsub in H.
  destruct (finite_cases y Hy) as [[s E]|(s & m & e & E)]; rewrite E in H.
  - apply float_of_SF in H. rewrite H. destruct s; reflexivity.
  - rewrite Z.sub_diag in H. simpl in H. apply float_of_SF in H. rewrite H. reflexivity.
Qed.

Lemma zero_div_positive :
  forall d : float, (0 <? d)%float = true -> (0 / d)%float = 0%float.
Proof.
  intros d Hd. rewrite FloatAxioms.ltb_spec in Hd.
  pose proof (FloatAxioms.div_spec 0 d) as H. unfold SF64div, SFdiv in H.
  replace (Prim2SF 0) with (S754_zero false) in * by reflexivity.
  destruct (Prim2SF d) as [s|s| |s m e]; simpl in Hd; try discriminate;
    destruct s; try discriminate; apply float_of_SF in H; rewrite H; reflexivity.
Qed.

Lemma add_zero_leb :
  forall y : float, PrimFloat.is_finite y = true -> (y + 0 <=? y)%float = true.
Proof.
  intros y Hy. rewrite FloatAxioms.leb_spec, FloatAxioms.add_spec.
  replace (Prim2SF 0) with (S754_zero false) by reflexivity.
  destruct (finite_cases y Hy) as [[s E]|(s & m & e & E)]; rewrite E.
  - destruct s; reflexivity.
  - unfold SF64add, SFadd, SFleb, SFcompare.
    rewrite Z.compare_refl, Pos.compare_cont_refl. destruct s; reflexivity.
Qed.

(** X24.  A click exactly level with the turret, in binary64 (lines
    301-310 and 352-366).  The interceptor of such a click, with a finite
    height and a positive computed route length, has [dy = 0], so its
    first step leaves [current.y] where it is and the arrival test
    [current.y <= target.y] succeeds at once: the filter drops the
    interceptor in its first frame, however far away the click is, and
    puts the explosion at the click point. *)
Theorem level_click_detonates_at_once :
  forall inter s,
    i_current inter = i_start inter ->
    i_speed inter = INTERCEPTOR_SPEED ->
    p_y (i_target inter) = p_y (i_start inter) ->
    PrimFloat.is_finite (p_y (i_start inter)) = true ->
    (0 <? distance (i_target inter) (i_start inter))%float = true ->
    interceptorFrame inter s
    = (None, pushExplosion (newExplosion (i_target inter) EXPLOSION_MAX_RADIUS) s).
Proof.
  intros [[sx sy] [tx ty] cur v idx] s Hc Hv Hy Hf Hd.
  cbn [i_current i_start i_speed i_target p_y] in Hc, Hv, Hy, Hf.
  subst cur v ty.
  assert (Ha : interceptor_arrived
                 (interceptor_advance
                    (mkInterceptor (mkPoint sx sy) (mkPoint tx sy) (mkPoint sx sy)
                       INTERCEPTOR_SPEED idx)) = true).
  { unfold interceptor_arrived, interceptor_advance, advance.
    cbn [i_current i_start i_speed i_target p_x p_y].
    unfold distance in Hd. cbn [i_start i_target p_x p_y] in Hd.
    cbn [add sub mul div sqrt float_arith] in *.
    rewrite (sub_self_finite sy Hf) in *.
    rewrite (zero_div_positive Hd).
    replace (0 * INTERCEPTOR_SPEED)%float with 0%float by reflexivity.
    apply add_zero_leb; exact Hf. }
  unfold interceptorFrame. rewrite Ha. reflexivity.
Qed.


(** Two clicks of a fresh match, executed.  A click on the ground line,
    140 px from the turret: the interceptor is gone after one frame and
    its explosion is at the click point.  A click 5 px below the turret:
    after 200 frames the interceptor is still in flight, 1800 px below
    its turret. *)
Example ground_click_runs :
  interceptors (update quietFrame groundClick) = []
  /\ map e_pos (explosions (update quietFrame groundClick)) = [ mkPoint 200 560 ]%float.
Proof. vm_compute. split; reflexivity. Qed.

Example short_click_runs :
  map i_current (interceptors (Nat.iter 200 (update quietFrame) shortClick))
  = [ mkPoint 60 2360 ]%float.
Proof. vm_compute. reflexivity. Qed.

(* ================================================================== *)
(** ** The properties at concrete matches *)

Lemma volley_reachable :
  steps (startGame CLASSIC (Some (800, 600)%float) (initialGame 800 600 None)) volley.
Proof.
  unfold volley. apply steps_frames.
  eapply steps_next; [apply steps_refl | apply step_click].
Qed.

(** Before the first match a frame and a click leave the state alone. *)
Lemma halted_match_is_frozen_witness :
  handleCanvasClick 60 500 (update quietFrame (initialGame 800 600 None))
  = initialGame 800 600 None.
Proof.
  apply halted_match_is_frozen.
  - vm_compute; discriminate.
  - eapply steps_next; [eapply steps_next; [apply steps_refl | apply step_frame]
                       | apply step_click].
Defined.

(** Classic mode at 1000 points: the frame ends the match as won although
    a rocket is about to wreck the last turret. *)
Lemma frame_outcome_witness :
  gameState (update quietFrame lastStand) = WON.
Proof.
  apply (proj2 (proj1 (frame_outcome quietFrame lastStand eq_refl))).
  split; [reflexivity | vm_compute; discriminate].
Defined.

Lemma match_states_reachable_witness :
  gameState volley = PLAYING \/ gameState volley = WON \/ gameState volley = LOST.
Proof.
  exact (@match_states_reachable CLASSIC (Some (800, 600)%float)
           (initialGame 800 600 None) volley volley_reachable).
Defined.

(** Two rockets destroyed in one frame at 780 points. *)
Lemma kills_pay_twenty_witness :
  (length (rockets (update quietFrame doubleKill))
   <= length (rockets (afterKinematics quietFrame doubleKill)))%nat
  /\ score (update quietFrame doubleKill)
     = (780 + 0
        + ROCKET_SCORE
          * (Z.of_nat (length (rockets (afterKinematics quietFrame doubleKill)))
             - Z.of_nat (length (rockets (update quietFrame doubleKill)))))%Z.
Proof.
  exact (kills_pay_twenty quietFrame doubleKill eq_refl).
Defined.

Lemma score_quantized_witness :
  scoreQueue volley = 0%Z
  /\ exists k : nat, score volley = (score freshGame + ROCKET_SCORE * Z.of_nat k)%Z.
Proof.
  exact (@score_quantized freshGame volley eq_refl volley_reachable).
Defined.

Lemma explosions_after_frame_witness :
  explosions (update quietFrame scenarioD)
  = filter explosion_alive
      (map explosion_advance (explosions (afterKinematics quietFrame scenarioD))).
Proof.
  exact (explosions_after_frame quietFrame scenarioD eq_refl).
Defined.

(** No spawn is due in [impactGame]: the frame cannot add a rocket. *)
Lemma frame_population_witness :
  (length (rockets (update quietFrame impactGame)) <= length (rockets impactGame))%nat.
Proof.
  apply (proj1 (proj2 (frame_population quietFrame impactGame eq_refl))).
  vm_compute; reflexivity.
Defined.


Lemma layout_is_permanent_witness :
  Forall2 laterTurret (turrets freshGame) (turrets volley)
  /\ Forall2 laterCity (cities freshGame) (cities volley).
Proof.
  exact (@layout_is_permanent freshGame volley volley_reachable).
Defined.

Lemma ammo_within_bounds_witness : ammoOk (turrets volley).
Proof.
  exact (@ammo_within_bounds CLASSIC 800%float 600%float
           (initialGame 800 600 None) volley volley_reachable).
Defined.

Lemma counters_of_a_match_witness :
  gameMode volley = CLASSIC /\ (1 <= round volley)%Z
  /\ (0 <= score volley)%Z /\ (ROCKET_SCORE | score volley)%Z.
Proof.
  exact (@counters_of_a_match CLASSIC (Some (800, 600)%float)
           (initialGame 800 600 None) volley volley_reachable).
Defined.

Lemma refill_latches_follow_score_witness :
  (hasRefilledAt500 volley = true -> (500 <= score volley)%Z)
  /\ (lastRefillScore volley = 0%Z
      \/ (CLASSIC = ENDLESS /\ (0 < lastRefillScore volley <= score volley)%Z
          /\ (800 | lastRefillScore volley)%Z)).
Proof.
  exact (@refill_latches_follow_score CLASSIC (Some (800, 600)%float)
           (initialGame 800 600 None) volley volley_reachable).
Defined.

(** The explosion of the interceptor of [volley], two frames old. *)
Lemma explosions_expire_witness :
  exists e, In e (explosions volley) /\ explosion_after 91 e = None.
Proof.
  set (e := hd (newExplosion (mkPoint 0 0) 0)%float (explosions volley)).
  assert (Hin : In e (explosions volley)) by (vm_compute; left; reflexivity).
  exists e. split; [exact Hin|].
  exact (proj1 (@explosions_expire CLASSIC (Some (800, 600)%float)
                  (initialGame 800 600 None) volley e volley_reachable Hin)).
Defined.

Lemma match_layout_witness :
  map (fun t => (t_x t, t_y t, t_maxAmmo t)) (turrets volley)
  = [ (60, 600 - 40, 20%Z); (800 / 2, 600 - 40, 40%Z); (800 - 60, 600 - 40, 20%Z) ]%float
  /\ map (fun c => (c_x c, c_y c)) (cities volley)
     = [ (800 * 0.18, 600 - 40); (800 * 0.28, 600 - 40); (800 * 0.38, 600 - 40);
         (800 * 0.62, 600 - 40); (800 * 0.72, 600 - 40); (800 * 0.82, 600 - 40) ]%float.
Proof.
  exact (@match_layout CLASSIC 800%float 600%float
           (initialGame 800 600 None) volley volley_reachable).
Defined.

(** The round ends in [spent] in a frame without kill or shake: the loop
    goes on with round 1 in round 2. *)
Lemma spawn_cadence_witness :
  seenRound (update quietFrame spent) = 1%Z
  /\ round (update quietFrame spent) = 2%Z.
Proof.
  split; [|vm_compute; reflexivity].
  rewrite (proj1 (proj2 (spawn_cadence quietFrame spent eq_refl))).
  vm_compute; reflexivity.
Defined.

Lemma rockets_speed_up_witness :
  (1 <= seenRound volley <= round volley)%Z
  /\ Forall (seasoned (seenRound volley)) (rockets volley)
  /\ ((round volley <= 1000)%Z ->
      Forall (fun r => (rocketSpeed (round volley) <? r_speed r)%float = false)
        (rockets volley)).
Proof.
  apply (@rockets_speed_up CLASSIC (Some (800, 600)%float) (initialGame 800 600 None)
           volley).
  - vm_compute; discriminate.
  - exact volley_reachable.
Defined.

(** The interceptor of [groundClick]. *)
Lemma level_click_detonates_at_once_witness :
  interceptorFrame
    (mkInterceptor (mkPoint 60 560) (mkPoint 200 560) (mkPoint 60 560)
       INTERCEPTOR_SPEED 0)%float freshGame
  = (None,
     pushExplosion (newExplosion (mkPoint 200 560)%float EXPLOSION_MAX_RADIUS) freshGame).
Proof.
  apply (@level_click_detonates_at_once
           (mkInterceptor (mkPoint 60 560) (mkPoint 200 560) (mkPoint 60 560)
              INTERCEPTOR_SPEED 0)%float freshGame);
    vm_compute; reflexivity.
Defined.
